(** * Decoders of the GGUF and GGLA model containers (package llm)

    A shallow embedding of [llm/gguf.go] and [llm/ggla.go].  The stream is an
    explicit state (the bytes of the file and the tracked offset), Go's
    fixed-width integers are [Z] with their wrap-around written out, the
    metadata store is a finite map from strings to dynamically typed values,
    and run-time panics are a result of their own. *)

From Stdlib Require Import ZArith Lia List Strings.String Strings.Byte.
From stdpp Require Import base option list gmap strings.
Import ListNotations.
Set Warnings "-register-all".
Local Open Scope Z_scope.

(** ** Go primitives used by both decoders *)
Module Go.

(** [uintN(x)] and [intN(x)]: conversion to a [w]-bit type. *)
Definition wrap (w x : Z) : Z := x mod 2 ^ w.
Definition swrap (w x : Z) : Z := (x + 2 ^ (w - 1)) mod 2 ^ w - 2 ^ (w - 1).

Definition uint32 := wrap 32.
Definition uint64 := wrap 64.
Definition int64 := swrap 64.

(** [binary.ByteOrder]: the two orders of encoding/binary. *)
Inductive ByteOrder := LittleEndian | BigEndian.

Definition byte_val (b : byte) : Z := Z.of_N (Byte.to_N b).

Fixpoint le_uint (bs : list byte) : Z :=
  match bs with
  | [] => 0
  | b :: bs' => byte_val b + 256 * le_uint bs'
  end.

Definition uint_of (bo : ByteOrder) (bs : list byte) : Z :=
  match bo with
  | LittleEndian => le_uint bs
  | BigEndian => le_uint (rev bs)
  end.

Inductive error :=
| EOF                               (* io.EOF *)
| ErrUnexpectedEOF                  (* io.ErrUnexpectedEOF *)
| ErrSeek                           (* seek to an invalid position *)
| ErrInvalidType (vtype : Z)        (* "invalid type: %d" *)
| ErrInvalidArrayType (atype : Z)   (* "invalid array type: %d" *)
| ErrInvalidVersion.                (* "invalid version" *)

Inductive panic :=
| PanicTruncate                     (* bytes.Buffer: truncation out of range *)
| PanicDivide.                      (* integer divide by zero *)

(** Modelled from the spec: the seekable-stream wrapper [readSeekOffset] is
    declared outside the two decoder files.  It is "a seekable byte source
    exposing current absolute offset, sequential reads of N bytes, and
    absolute/relative seeks": the bytes of the source and the offset the
    wrapper tracks, which is also the position of the source. *)
Record readSeekOffset := { data : list byte; offset : Z }.

Definition at_offset (r : readSeekOffset) (o : Z) : readSeekOffset :=
  {| data := data r; offset := o |}.

(** The bytes from the current position to the end of the source. *)
Definition rest (r : readSeekOffset) : list byte :=
  drop (Z.to_nat (offset r)) (data r).

Definition advance (r : readSeekOffset) (n : nat) : readSeekOffset :=
  at_offset r (offset r + Z.of_nat n).

(** [io.ReadFull] of an [n]-byte buffer: all of it, or an error after
    consuming what was left ([io.EOF] when nothing was). *)
Definition ReadFull (n : nat) (r : readSeekOffset)
  : (error + list byte) * readSeekOffset :=
  let avail := rest r in
  if (n <=? length avail)%nat then (inr (take n avail), advance r n)
  else (inl (if (length avail =? 0)%nat then EOF else ErrUnexpectedEOF),
        advance r (length avail)).

(** [binary.Read] into an unsigned integer of [n] bytes. *)
Definition binary_Read (bo : ByteOrder) (n : nat) (r : readSeekOffset)
  : (error + Z) * readSeekOffset :=
  match ReadFull n r with
  | (inr bs, r') => (inr (uint_of bo bs), r')
  | (inl err, r') => (inl err, r')
  end.

(** [io.CopyN(&b, r, n)] into a fresh [bytes.Buffer]: for [n <= 0] the
    limited reader is at its end at once, nothing is copied and no error is
    reported; a short copy reports [io.EOF]. *)
Definition CopyN (n : Z) (r : readSeekOffset)
  : (error + list byte) * readSeekOffset :=
  if n <=? 0 then (inr [], r)
  else
    let avail := rest r in
    if n <=? Z.of_nat (length avail)
    then (inr (take (Z.to_nat n) avail), advance r (Z.to_nat n))
    else (inl EOF, advance r (length avail)).

Inductive whence := SeekStart | SeekCurrent | SeekEnd.

(** Modelled from the spec: [Seek] of the stream wrapper.  A target
    position that is negative or does not fit a signed 64-bit integer is
    refused and leaves the stream where it was; any other target, also one
    past the end of the source, becomes the new offset. *)
Definition Seek (off : Z) (w : whence) (r : readSeekOffset)
  : option error * readSeekOffset :=
  let target :=
    match w with
    | SeekStart => off
    | SeekCurrent => offset r + off
    | SeekEnd => Z.of_nat (length (data r)) + off
    end in
  if (0 <=? target) && (target <? 2 ^ 63) then (None, at_offset r target)
  else (Some ErrSeek, r).

(** Results of code that may panic. *)
Inductive res (A : Type) :=
| Ret (a : A) (r : readSeekOffset)
| Panic (p : panic).
Arguments Ret {A} a r.
Arguments Panic {A} p.

Definition M (A : Type) : Type := readSeekOffset -> res A.

Definition ret {A} (a : A) : M A := fun r => Ret a r.

Definition bind {A B} (m : M A) (k : A -> M B) : M B :=
  fun r => match m r with
           | Ret a r' => k a r'
           | Panic p => Panic p
           end.

(** An operation that cannot panic. *)
Definition lift {A} (f : readSeekOffset -> A * readSeekOffset) : M A :=
  fun r => let '(a, r') := f r in Ret a r'.

(** Code that returns at the first error: [if err != nil { return err }]. *)
Definition E (A : Type) : Type := readSeekOffset -> (error + A) * readSeekOffset.

Definition eret {A} (a : A) : E A := fun r => (inr a, r).

Definition ebind {A B} (m : E A) (k : A -> E B) : E B :=
  fun r => match m r with
           | (inr a, r') => k a r'
           | (inl err, r') => (inl err, r')
           end.

Definition seek (off : Z) (w : whence) : E unit :=
  fun r => match Seek off w r with
           | (None, r') => (inr tt, r')
           | (Some err, r') => (inl err, r')
           end.

End Go.

Export Go.

Notation "x <- m ;; k" := (bind m (fun x => k))
  (at level 100, m at next level, right associativity).
Notation "x <-? m ;; k" := (ebind m (fun x => k))
  (at level 100, m at next level, right associativity).

(** ** Data shared by the decoders *)

(** A metadata value, [any] in the source: one variant per type the decoders
    store.  Floats are kept as their IEEE bit patterns. *)
Inductive value :=
| VUint8 (x : Z) | VInt8 (x : Z)
| VUint16 (x : Z) | VInt16 (x : Z)
| VUint32 (x : Z) | VInt32 (x : Z)
| VUint64 (x : Z) | VInt64 (x : Z)
| VFloat32 (bits : Z) | VFloat64 (bits : Z)
| VBool (b : bool)
| VString (s : string)
| VArray (a : list value).

Abbreviation KV := (gmap string value).

Record tensor := {
  Name : string;
  Kind : Z;
  t_offset : Z;
  Shape : list Z
}.

(** The methods [size] and [parameters] of [tensor] are declared outside the
    two decoder files; the decoders are parametrised by them.  Both return a
    [uint64]. *)
Record SizeOracle := {
  tensor_size : tensor -> Z;
  tensor_parameters : tensor -> Z
}.

Definition is_array (v : value) : bool :=
  match v with VArray _ => true | _ => false end.

(** ** Format A: [llm/gguf.go] *)
Module GGUF.

Record counts := { NumTensor : Z; NumKV : Z }.

Record containerGGUF := {
  bo : ByteOrder;
  Version : Z;
  V1 : counts;     (* two uint32 *)
  V2 : counts      (* two uint64 *)
}.

Definition ggufTypeUint8 : Z := 0.
Definition ggufTypeInt8 : Z := 1.
Definition ggufTypeUint16 : Z := 2.
Definition ggufTypeInt16 : Z := 3.
Definition ggufTypeUint32 : Z := 4.
Definition ggufTypeInt32 : Z := 5.
Definition ggufTypeFloat32 : Z := 6.
Definition ggufTypeBool : Z := 7.
Definition ggufTypeString : Z := 8.
Definition ggufTypeArray : Z := 9.
Definition ggufTypeUint64 : Z := 10.
Definition ggufTypeInt64 : Z := 11.
Definition ggufTypeFloat64 : Z := 12.

Record modelGGUF := {
  container : containerGGUF;
  kv : KV;
  tensors : list tensor;
  parameters : Z
}.

Definition newModelGGUF (c : containerGGUF) : modelGGUF :=
  {| container := c; kv := ∅; tensors := []; parameters := 0 |}.

Definition modelNumTensor (c : containerGGUF) : Z :=
  if Version c =? 1 then uint64 (NumTensor (V1 c)) else NumTensor (V2 c).

Definition modelNumKV (c : containerGGUF) : Z :=
  if Version c =? 1 then uint64 (NumKV (V1 c)) else NumKV (V2 c).

(** The scalar readers declare a zero variable, call [binary.Read] on it and
    return it, whatever [binary.Read] reported. *)
Definition read_uint (bo : ByteOrder) (n : nat) (r : readSeekOffset)
  : Z * readSeekOffset :=
  match binary_Read bo n r with
  | (inr x, r') => (x, r')
  | (inl _, r') => (0, r')
  end.

Definition readU8 (bo : ByteOrder) : M Z := lift (read_uint bo 1).
Definition readI8 (bo : ByteOrder) : M Z := x <- readU8 bo;; ret (swrap 8 x).
Definition readU16 (bo : ByteOrder) : M Z := lift (read_uint bo 2).
Definition readI16 (bo : ByteOrder) : M Z := x <- readU16 bo;; ret (swrap 16 x).
Definition readU32 (bo : ByteOrder) : M Z := lift (read_uint bo 4).
Definition readI32 (bo : ByteOrder) : M Z := x <- readU32 bo;; ret (swrap 32 x).
Definition readU64 (bo : ByteOrder) : M Z := lift (read_uint bo 8).
Definition readI64 (bo : ByteOrder) : M Z := x <- readU64 bo;; ret (swrap 64 x).
Definition readF32 (bo : ByteOrder) : M Z := readU32 bo.
Definition readF64 (bo : ByteOrder) : M Z := readU64 bo.
Definition readBool (bo : ByteOrder) : M bool :=
  x <- readU8 bo;; ret (negb (x =? 0)).

(** [b.Truncate(n)] of [bytes.Buffer]. *)
Definition Truncate (b : list byte) (n : Z) : M (list byte) :=
  if n =? 0 then ret []
  else if (n <? 0) || (Z.of_nat (length b) <? n) then fun _ => Panic PanicTruncate
  else ret (take (Z.to_nat n) b).

Definition readStringV1 (bo : ByteOrder) : M (error + string) :=
  nameLength <- lift (read_uint bo 4);;
  b <- lift (CopyN (int64 nameLength));;
  match b with
  | inl err => ret (inl err)
  | inr b =>
      (* gguf v1 strings are null-terminated *)
      b' <- Truncate b (Z.of_nat (length b) - 1);;
      ret (inr (string_of_list_byte b'))
  end.

Definition readString (c : containerGGUF) : M (error + string) :=
  if Version c =? 1 then readStringV1 (bo c)
  else
    nameLength <- lift (read_uint (bo c) 8);;
    b <- lift (CopyN (int64 nameLength));;
    match b with
    | inl err => ret (inl err)
    | inr b => ret (inr (string_of_list_byte b))
    end.

Definition ok {A} (f : A -> value) (m : M A) : M (error + value) :=
  x <- m;; ret (inr (f x)).

Definition str (m : M (error + string)) : M (error + value) :=
  s <- m;;
  match s with
  | inl err => ret (inl err)
  | inr s => ret (inr (VString s))
  end.

(** The element switch of [readArrayV1]. *)
Definition readElemV1 (bo : ByteOrder) (atype : Z) : M (error + value) :=
  if atype =? ggufTypeUint8 then ok VUint8 (readU8 bo)
  else if atype =? ggufTypeInt8 then ok VInt8 (readI8 bo)
  else if atype =? ggufTypeUint16 then ok VUint16 (readU16 bo)
  else if atype =? ggufTypeInt16 then ok VInt16 (readI16 bo)
  else if atype =? ggufTypeUint32 then ok VUint32 (readU32 bo)
  else if atype =? ggufTypeInt32 then ok VInt32 (readI32 bo)
  else if atype =? ggufTypeFloat32 then ok VFloat32 (readF32 bo)
  else if atype =? ggufTypeBool then ok VBool (readBool bo)
  else if atype =? ggufTypeString then str (readStringV1 bo)
  else ret (inl (ErrInvalidArrayType atype)).

(** The element switch of [readArray]. *)
Definition readElem (c : containerGGUF) (atype : Z) : M (error + value) :=
  if atype =? ggufTypeUint8 then ok VUint8 (readU8 (bo c))
  else if atype =? ggufTypeInt8 then ok VInt8 (readI8 (bo c))
  else if atype =? ggufTypeUint16 then ok VUint16 (readU16 (bo c))
  else if atype =? ggufTypeInt16 then ok VInt16 (readI16 (bo c))
  else if atype =? ggufTypeUint32 then ok VUint32 (readU32 (bo c))
  else if atype =? ggufTypeInt32 then ok VInt32 (readI32 (bo c))
  else if atype =? ggufTypeUint64 then ok VUint64 (readU64 (bo c))
  else if atype =? ggufTypeInt64 then ok VInt64 (readI64 (bo c))
  else if atype =? ggufTypeFloat32 then ok VFloat32 (readF32 (bo c))
  else if atype =? ggufTypeFloat64 then ok VFloat64 (readF64 (bo c))
  else if atype =? ggufTypeBool then ok VBool (readBool (bo c))
  else if atype =? ggufTypeString then str (readString c)
  else ret (inl (ErrInvalidArrayType atype)).

(** [for i := 0; i < n; i++ { switch atype { ... } }]: the element type is
    examined once per element. *)
Fixpoint readElems (elem : M (error + value)) (n : nat) (arr : list value)
  : M (error + list value) :=
  match n with
  | O => ret (inr arr)
  | S n' =>
      v <- elem;;
      match v with
      | inl err => ret (inl err)
      | inr v => readElems elem n' (arr ++ [v])
      end
  end.

Definition readArrayV1 (bo : ByteOrder) : M (error + list value) :=
  atype <- readU32 bo;;
  n <- readU32 bo;;
  readElems (readElemV1 bo atype) (Z.to_nat n) [].

Definition readArray (c : containerGGUF) : M (error + list value) :=
  if Version c =? 1 then readArrayV1 (bo c)
  else
    atype <- readU32 (bo c);;
    n <- readU64 (bo c);;
    readElems (readElem c atype) (Z.to_nat n) [].

(** The value switch of the key-value loop of [decode]. *)
Definition readValue (c : containerGGUF) (vtype : Z) : M (error + value) :=
  if vtype =? ggufTypeUint8 then ok VUint8 (readU8 (bo c))
  else if vtype =? ggufTypeInt8 then ok VInt8 (readI8 (bo c))
  else if vtype =? ggufTypeUint16 then ok VUint16 (readU16 (bo c))
  else if vtype =? ggufTypeInt16 then ok VInt16 (readI16 (bo c))
  else if vtype =? ggufTypeUint32 then ok VUint32 (readU32 (bo c))
  else if vtype =? ggufTypeInt32 then ok VInt32 (readI32 (bo c))
  else if vtype =? ggufTypeUint64 then ok VUint64 (readU64 (bo c))
  else if vtype =? ggufTypeInt64 then ok VInt64 (readI64 (bo c))
  else if vtype =? ggufTypeFloat32 then ok VFloat32 (readF32 (bo c))
  else if vtype =? ggufTypeFloat64 then ok VFloat64 (readF64 (bo c))
  else if vtype =? ggufTypeBool then ok VBool (readBool (bo c))
  else if vtype =? ggufTypeString then str (readString c)
  else if vtype =? ggufTypeArray then
    a <- readArray c;;
    match a with
    | inl err => ret (inl err)
    | inr a => ret (inr (VArray a))
    end
  else ret (inl (ErrInvalidType vtype)).

Definition chat_template : string := "tokenizer.chat_template".

(** What the key-value loop does with a decoded entry. *)
Definition store (kv : KV) (k : string) (vtype : Z) (v : value) : KV :=
  if negb (vtype =? ggufTypeArray) && negb (String.eqb k chat_template)
  then <[k := v]> kv
  else kv.

(** One round of the key-value loop. *)
Definition decode_kv (c : containerGGUF) (kv : KV) : M (error + KV) :=
  k <- readString c;;
  match k with
  | inl err => ret (inl err)
  | inr k =>
      vtype <- readU32 (bo c);;
      v <- readValue c vtype;;
      match v with
      | inl err => ret (inl err)
      | inr v => ret (inr (store kv k vtype v))
      end
  end.

Fixpoint decode_kvs (c : containerGGUF) (n : nat) (kv : KV)
  : M (KV * option error) :=
  match n with
  | O => ret (kv, None)
  | S n' =>
      kv' <- decode_kv c kv;;
      match kv' with
      | inl err => ret (kv, Some err)
      | inr kv' => decode_kvs c n' kv'
      end
  end.

Fixpoint readShape (bo : ByteOrder) (dims : nat) : M (list Z) :=
  match dims with
  | O => ret []
  | S dims' => d <- readU64 bo;; ds <- readShape bo dims';; ret (d :: ds)
  end.

(** One round of the tensor loop, up to the descriptor. *)
Definition decode_tensor (c : containerGGUF) : M (error + tensor) :=
  name <- readString c;;
  match name with
  | inl err => ret (inl err)
  | inr name =>
      dims <- readU32 (bo c);;
      shape <- readShape (bo c) (Z.to_nat dims);;
      kind <- readU32 (bo c);;
      off <- readU64 (bo c);;
      ret (inr {| Name := name; Kind := kind; t_offset := off; Shape := shape |})
  end.

Section WithOracle.
Context (oracle : SizeOracle).

Fixpoint decode_tensors (c : containerGGUF) (n : nat)
         (ts : list tensor) (params : Z)
  : M (list tensor * Z * option error) :=
  match n with
  | O => ret (ts, params, None)
  | S n' =>
      t <- decode_tensor c;;
      match t with
      | inl err => ret (ts, params, Some err)
      | inr t =>
          decode_tensors c n' (ts ++ [t])
            (uint64 (params + uint64 (tensor_parameters oracle t)))
      end
  end.

Definition parameter_count : string := "general.parameter_count".
Definition alignment_key : string := "general.alignment".

(** [alignment, ok := llm.kv["general.alignment"].(uint32)] and its
    default. *)
Definition alignment_of (kv : KV) : Z :=
  match kv !! alignment_key with
  | Some (VUint32 a) => a
  | _ => 32
  end.

Definition padded (alignment : Z) (t : tensor) : Z :=
  Z.land (int64 (int64 (tensor_size oracle t) + int64 alignment - 1))
         (Z.lnot (int64 (int64 alignment - 1))).

(** The seeks ignore what [Seek] reports. *)
Definition seek_current (off : Z) : M unit :=
  lift (fun r => (tt, snd (Seek off SeekCurrent r))).

Fixpoint skip_tensors (alignment : Z) (ts : list tensor) : M unit :=
  match ts with
  | [] => ret tt
  | t :: ts' => _ <- seek_current (padded alignment t);; skip_tensors alignment ts'
  end.

(** The end of [decode], from the alignment lookup on. *)
Definition skip_data (kv : KV) (ts : list tensor) : M unit :=
  fun r =>
    let alignment := alignment_of kv in
    if int64 alignment =? 0 then Panic PanicDivide
    else
      (_ <- seek_current
              (int64 (int64 alignment - Z.rem (offset r) (int64 alignment)));;
       skip_tensors alignment ts) r.

Definition decode (llm : modelGGUF) : M (modelGGUF * option error) :=
  let c := container llm in
  kvs <- decode_kvs c (Z.to_nat (modelNumKV c)) (kv llm);;
  let '(kv1, err) := kvs in
  let llm1 := {| container := c; kv := kv1; tensors := tensors llm;
                 parameters := parameters llm |} in
  match err with
  | Some err => ret (llm1, Some err)
  | None =>
      tns <- decode_tensors c (Z.to_nat (modelNumTensor c))
               (tensors llm) (parameters llm);;
      let '(ts, params, err) := tns in
      let llm2 := {| container := c; kv := kv1; tensors := ts;
                     parameters := params |} in
      match err with
      | Some err => ret (llm2, Some err)
      | None =>
          (* patch KV with parameter count *)
          let kv3 := <[parameter_count := VUint64 params]> kv1 in
          let llm3 := {| container := c; kv := kv3; tensors := ts;
                         parameters := params |} in
          _ <- skip_data kv3 ts;;
          ret (llm3, None)
      end
  end.

(** [binary.Read] into the two counts of [V1] (or [V2]): one read of both
    fields, which are left as they were when it fails. *)
Definition read_counts (bo : ByteOrder) (w : nat) (old : counts)
           (r : readSeekOffset) : counts * readSeekOffset :=
  match ReadFull (2 * w) r with
  | (inr bs, r') =>
      ({| NumTensor := uint_of bo (take w bs);
          NumKV := uint_of bo (drop w bs) |}, r')
  | (inl _, r') => (old, r')
  end.

Definition read_version (c : containerGGUF) (r : readSeekOffset)
  : Z * readSeekOffset :=
  match binary_Read (bo c) 4 r with
  | (inr v, r') => (v, r')
  | (inl _, r') => (Version c, r')
  end.

Definition Decode (c : containerGGUF) : M (modelGGUF * option error) :=
  version <- lift (read_version c);;
  c' <- (if version =? 1
         then v1 <- lift (read_counts (bo c) 4 (V1 c));;
              ret {| bo := bo c; Version := version; V1 := v1; V2 := V2 c |}
         else v2 <- lift (read_counts (bo c) 8 (V2 c));;
              ret {| bo := bo c; Version := version; V1 := V1 c; V2 := v2 |});;
  decode (newModelGGUF c').

End WithOracle.

End GGUF.

(** ** Format B: [llm/ggla.go] *)
Module GGLA.

Record containerGGLA := { version : Z }.

Record modelGGLA := {
  container : containerGGLA;
  kv : KV;
  tensors : list tensor
}.

Definition newModelGGLA (c : containerGGLA) : modelGGLA :=
  {| container := c; kv := ∅; tensors := [] |}.

Definition read_u32 : E Z := binary_Read LittleEndian 4.

(** [t.Shape[i] = uint64(shape32)] for [i] from 0 to [dims-1]. *)
Fixpoint readShape (dims : nat) (shape : list Z) : E (list Z) :=
  match dims with
  | O => eret shape
  | S dims' => shape32 <-? read_u32;; readShape dims' (shape ++ [uint64 shape32])
  end.

Section WithOracle.
Context (oracle : SizeOracle).

(** One round of the tensor loop. *)
Definition decode_tensor : E tensor :=
  dims <-? read_u32;;
  namesize <-? read_u32;;
  kind <-? read_u32;;
  shape <-? readShape (Z.to_nat dims) [];;
  (* ggla tensor shape is reversed *)
  let shape := rev shape in
  name <-? ReadFull (Z.to_nat namesize);;
  _ <-? (fun r => seek (Z.land (int64 (offset r + 31)) (-32)) SeekStart r);;
  fun r =>
    let t := {| Name := string_of_list_byte name; Kind := kind;
                t_offset := uint64 (offset r); Shape := shape |} in
    (_ <-? seek (int64 (tensor_size oracle t)) SeekCurrent;; eret t) r.

(** [for { ... }]: the loop is left by a [return err] only.  [None] when
    the rounds allowed are used up. *)
Fixpoint decode_tensors (fuel : nat) (ts : list tensor) (r : readSeekOffset)
  : option (list tensor * error * readSeekOffset) :=
  match fuel with
  | O => None
  | S fuel' =>
      match decode_tensor r with
      | (inl err, r') => Some (ts, err, r')
      | (inr t, r') => decode_tensors fuel' (ts ++ [t]) r'
      end
  end.

Definition decode (fuel : nat) (m : modelGGLA) (r : readSeekOffset)
  : option (modelGGLA * error * readSeekOffset) :=
  match read_u32 r with
  | (inl err, r1) => Some (m, err, r1)
  | (inr rank, r1) =>
      let kv1 := <["r" := VUint32 rank]> (kv m) in
      match read_u32 r1 with
      | (inl err, r2) =>
          Some ({| container := container m; kv := kv1; tensors := tensors m |},
                err, r2)
      | (inr alpha, r2) =>
          let kv2 := <["alpha" := VUint32 alpha]> kv1 in
          match decode_tensors fuel (tensors m) r2 with
          | None => None
          | Some (ts, err, r3) =>
              Some ({| container := container m; kv := kv2; tensors := ts |},
                    err, r3)
          end
      end
  end.

(** [binary.Read(rso, binary.LittleEndian, &c.version)], the error
    dropped. *)
Definition read_version (c : containerGGLA) (r : readSeekOffset)
  : Z * readSeekOffset :=
  match read_u32 r with
  | (inr v, r') => (v, r')
  | (inl _, r') => (version c, r')
  end.

(** The model is [None] where the source returns [nil]. *)
Definition Decode (fuel : nat) (c : containerGGLA) (r : readSeekOffset)
  : option (option modelGGLA * option error * readSeekOffset) :=
  let '(v, r1) := read_version c r in
  if v =? 1 then
    match decode fuel (newModelGGLA {| version := v |}) r1 with
    | None => None
    | Some (m, err, r2) => Some (Some m, Some err, r2)
    end
  else Some (None, Some ErrInvalidVersion, r1).

(** Every tensor decoded in the first [n] rounds from [r] on is skipped
    by a distance that is not negative. *)
Fixpoint forward (n : nat) (r : readSeekOffset) : bool :=
  match n with
  | O => true
  | S n' =>
      match decode_tensor r with
      | (inl _, _) => true
      | (inr t, r') => (0 <=? int64 (tensor_size oracle t)) && forward n' r'
      end
  end.

(** The rounds of the loop from [r] on: the tensors of the rounds that
    succeed, and the error and stream of the first that does not. *)
Inductive rounds : readSeekOffset -> list tensor -> error -> readSeekOffset -> Prop :=
| rounds_stop r err r' :
    decode_tensor r = (inl err, r') -> rounds r [] err r'
| rounds_step r t r1 ts err r' :
    decode_tensor r = (inr t, r1) -> rounds r1 ts err r' ->
    rounds r (t :: ts) err r'.

(** What [decode] leaves in a fresh model: the two hyperparameters as far
    as they are read, the tensors of the rounds and the error that ends
    them. *)
Inductive decodes (r : readSeekOffset)
  : KV -> list tensor -> error -> readSeekOffset -> Prop :=
| decodes_no_rank err r' :
    read_u32 r = (inl err, r') -> decodes r ∅ [] err r'
| decodes_no_alpha rank r1 err r' :
    read_u32 r = (inr rank, r1) -> read_u32 r1 = (inl err, r') ->
    decodes r (<["r" := VUint32 rank]> ∅) [] err r'
| decodes_rounds rank r1 alpha r2 ts err r' :
    read_u32 r = (inr rank, r1) -> read_u32 r1 = (inr alpha, r2) ->
    rounds r2 ts err r' ->
    decodes r (<["alpha" := VUint32 alpha]> (<["r" := VUint32 rank]> ∅)) ts err r'.

End WithOracle.

(** The dimensions of the tensor entry at offset [o] as they are on the
    wire: the count at [o], then, after the name size and the kind, that
    many 32-bit little-endian values. *)
Definition wire_u32 (d : list byte) (o : Z) : Z :=
  le_uint (take 4 (drop (Z.to_nat o) d)).

Definition wire_dims (d : list byte) (o : Z) : list Z :=
  map (fun i => wire_u32 d (o + 12 + 4 * Z.of_nat i))
      (seq 0 (Z.to_nat (wire_u32 d o))).

End GGLA.

(** The sum of the parameter counts of the tensors, each a [uint64]. *)
Definition total_parameters (oracle : SizeOracle) (ts : list tensor) : Z :=
  fold_right (fun t acc => uint64 (tensor_parameters oracle t) + acc) 0 ts.

(** The smallest multiple of [A] that is not less than [S], for [A > 0]. *)
Definition round_up (A S : Z) : Z := A * ((S + A - 1) / A).

(** Where the data section ends when it starts at the first multiple of [A]
    from [pos] on and every tensor takes its size rounded up to [A]. *)
Definition aligned_end (oracle : SizeOracle) (A pos : Z) (ts : list tensor) : Z :=
  fold_left (fun o t => o + round_up A (tensor_size oracle t)) ts (round_up A pos).

(** The element tags [readArray] decodes: the scalar and string tags, the
    64-bit ones in containers other than version 1 only. *)
Definition valid_elem (c : GGUF.containerGGUF) (atype : Z) : Prop :=
  0 <= atype <= 8 \/ (GGUF.Version c <> 1 /\ 10 <= atype <= 12).

(** A key-value entry at [r] with a tag that is refused: its key is read,
    and then either the value tag is none of 0 to 12, or it is the array tag
    and the array has an element tag that is not valid and at least one
    element.  The error and the stream where decoding stops. *)
Inductive bad_tag (c : GGUF.containerGGUF) (r : readSeekOffset)
  : error -> readSeekOffset -> Prop :=
| bad_value_tag k r1 vtype r2 :
    GGUF.readString c r = Ret (inr k) r1 ->
    binary_Read (GGUF.bo c) 4 r1 = (inr vtype, r2) ->
    ~ 0 <= vtype <= 12 ->
    bad_tag c r (ErrInvalidType vtype) r2
| bad_elem_tag k r1 r2 atype r3 n r4 :
    GGUF.readString c r = Ret (inr k) r1 ->
    binary_Read (GGUF.bo c) 4 r1 = (inr 9, r2) ->
    binary_Read (GGUF.bo c) 4 r2 = (inr atype, r3) ->
    binary_Read (GGUF.bo c) (if GGUF.Version c =? 1 then 4 else 8) r3 = (inr n, r4) ->
    1 <= n ->
    ~ valid_elem c atype ->
    bad_tag c r (ErrInvalidArrayType atype) r4.

(** A store that shows no array and no chat template. *)
Definition filtered (kv : KV) : Prop :=
  forall k v, kv !! k = Some v -> is_array v = false /\ k <> GGUF.chat_template.

(** ** A size oracle and sample streams *)

(** Modelled from the spec: the element count of the tensor-size oracle,
    whose code is outside the two decoder files.  "Element count is the
    product of all shape dimensions", a [uint64] computation. *)
Definition elements (t : tensor) : Z :=
  fold_left (fun count n => uint64 (count * n)) (Shape t) 1.

(** Modelled from the spec: the scalar byte width of the unquantized float
    kinds.  Kind 0 is the 32-bit float and kind 1 the 16-bit float of the
    published format; the block table of the quantized kinds is not given,
    they get width 0 here and no sample uses them. *)
Definition typeSize (kind : Z) : Z :=
  if kind =? 0 then 4 else if kind =? 1 then 2 else 0.

(** Modelled from the spec: the tensor-size oracle for the unquantized float
    kinds, whose byte size "is element_count × the kind's scalar byte
    width", a [uint64] as well. *)
Definition float_oracle : SizeOracle :=
  {| tensor_size t := uint64 (elements t * typeSize (Kind t));
     tensor_parameters := elements |}.

Module Samples.

Definition byte_of (x : Z) : byte :=
  match Byte.of_N (Z.to_N (x mod 256)) with
  | Some b => b
  | None => "000"%byte
  end.

(** [n] bytes of [x], least significant first. *)
Fixpoint le_bytes (n : nat) (x : Z) : list byte :=
  match n with
  | O => []
  | S n' => byte_of x :: le_bytes n' (x / 256)
  end.

Definition u32 := le_bytes 4.
Definition u64 := le_bytes 8.
Definition chars (s : string) : list byte := list_byte_of_string s.

(** A version 2 or 3 string: 64-bit length, then the bytes. *)
Definition str (s : string) : list byte :=
  u64 (Z.of_nat (String.length s)) ++ chars s.

(** A version 1 string: 32-bit length, the bytes and a terminator. *)
Definition strV1 (s : string) : list byte :=
  u32 (Z.of_nat (String.length s) + 1) ++ chars s ++ [byte_of 0].

(** The stream once the dispatcher has read the four magic bytes. *)
Definition after_magic (d : list byte) : readSeekOffset :=
  {| data := chars "GGUF" ++ d; offset := 4 |}.

(** The container as the dispatcher creates it. *)
Definition gguf_le : GGUF.containerGGUF :=
  {| GGUF.bo := LittleEndian; GGUF.Version := 0;
     GGUF.V1 := {| GGUF.NumTensor := 0; GGUF.NumKV := 0 |};
     GGUF.V2 := {| GGUF.NumTensor := 0; GGUF.NumKV := 0 |} |}.

Definition ggla0 : GGLA.containerGGLA := {| GGLA.version := 0 |}.

Definition gguf_v (version : Z) : GGUF.containerGGUF :=
  {| GGUF.bo := LittleEndian; GGUF.Version := version;
     GGUF.V1 := {| GGUF.NumTensor := 0; GGUF.NumKV := 0 |};
     GGUF.V2 := {| GGUF.NumTensor := 0; GGUF.NumKV := 0 |} |}.

Definition from_start (d : list byte) : readSeekOffset :=
  {| data := d; offset := 0 |}.

(** Version 3, [nt] tensors, [nkv] key-value entries. *)
Definition header (nt nkv : Z) : list byte := u32 3 ++ u64 nt ++ u64 nkv.

(** A tensor entry of kind 0 (32-bit float). *)
Definition tensor_entry (name : string) (shape : list Z) (off : Z) : list byte :=
  str name ++ u32 (Z.of_nat (length shape)) ++ concat (map u64 shape)
    ++ u32 0 ++ u64 off.

(** The container once the header of [header nt nkv] is read, and the
    stream there. *)
Definition gguf_v3 (nt nkv : Z) : GGUF.containerGGUF :=
  {| GGUF.bo := LittleEndian; GGUF.Version := 3;
     GGUF.V1 := {| GGUF.NumTensor := 0; GGUF.NumKV := 0 |};
     GGUF.V2 := {| GGUF.NumTensor := nt; GGUF.NumKV := nkv |} |}.

Definition after_header (d : list byte) : readSeekOffset :=
  {| data := chars "GGUF" ++ d; offset := 24 |}.

(** An alignment of 64 and two tensors of 24 and 16 bytes; the descriptors
    end at offset 131. *)
Definition aligned64 : list byte :=
  header 2 1 ++ str "general.alignment" ++ u32 4 ++ u32 64
    ++ tensor_entry "a" [2; 3] 0 ++ tensor_entry "b" [4] 64.

(** An alignment of 24 and one tensor of 4 bytes; the descriptors end at
    offset 90. *)
Definition aligned24 : list byte :=
  header 1 1 ++ str "general.alignment" ++ u32 4 ++ u32 24
    ++ tensor_entry "t" [1] 0.

(** An entry "a" of tag 4, then an entry "b" of tag 255. *)
Definition tag255 : list byte :=
  header 0 2 ++ str "a" ++ u32 4 ++ u32 5 ++ str "b" ++ u32 255.

(** An entry "a" that is an array of one element of the array tag. *)
Definition array_of_arrays : list byte :=
  header 0 1 ++ str "a" ++ u32 9 ++ u32 9 ++ u64 1.

(** An entry "a" that is an array of no element of the array tag. *)
Definition empty_array_of_arrays : list byte :=
  header 0 1 ++ str "a" ++ u32 9 ++ u32 9 ++ u64 0.

(** A header that announces one entry, and nothing after it. *)
Definition header_only : list byte := header 0 1.

(** An array entry, a chat template, a name, and an entry that gives a
    parameter count of its own; then two tensors of 6 and 4 elements. *)
Definition tiny_model : list byte :=
  header 2 4
    ++ str "tokenizer.ggml.tokens" ++ u32 9 ++ u32 8 ++ u64 2 ++ str "a" ++ str "b"
    ++ str "tokenizer.chat_template" ++ u32 8 ++ str "{{x}}"
    ++ str "general.name" ++ u32 8 ++ str "tiny"
    ++ str "general.parameter_count" ++ u32 4 ++ u32 7
    ++ tensor_entry "a" [2; 3] 0 ++ tensor_entry "b" [4] 32.

(** A tensor entry of Format B, of kind 0. *)
Definition ggla_entry (name : string) (shape : list Z) : list byte :=
  u32 (Z.of_nat (length shape)) ++ u32 (Z.of_nat (String.length name)) ++ u32 0
    ++ concat (map u32 shape) ++ chars name.

Definition zeros (n : nat) : list byte := repeat (byte_of 0) n.

Definition after_ggla_magic (d : list byte) : readSeekOffset :=
  {| data := chars "ggla" ++ d; offset := 4 |}.

(** Rank 8, alpha 16, a tensor "a.loraA" of 2 by 3 on the wire with its 24
    bytes at offset 64, and a tensor "b" of 4 with its 16 bytes at offset
    128; 144 bytes in all. *)
Definition adapter : list byte :=
  u32 1 ++ u32 8 ++ u32 16
    ++ ggla_entry "a.loraA" [2; 3] ++ zeros 21 ++ zeros 24
    ++ ggla_entry "b" [4] ++ zeros 23 ++ zeros 16.

(** One entry at offset 16, of kind 0 and of dimensions [2^32 - 4] and
    [3 * 2^30 + 3], with an empty name: the entry ends at offset 36 and the
    size of the tensor, a [uint64], is [2^64 - 48]. *)
Definition looping : list byte :=
  u32 1 ++ u32 8 ++ u32 16 ++ ggla_entry "" [4294967292; 3221225475].

(** No tensor and one entry; the descriptors end at offset 64. *)
Definition ends_at_64 : list byte :=
  header 0 1 ++ str "general.architecture" ++ u32 10 ++ u64 7.

End Samples.

(** ** Format B without tensors: the second [containerGGLA] of the sources *)
Module GGLAHeader.

Record gglaModel := { container : GGLA.containerGGLA }.

Definition newGGLAModel (c : GGLA.containerGGLA) : gglaModel :=
  {| container := c |}.

(** [func (m *gglaModel) decode(rso *readSeekOffset) error { return nil }] *)
Definition decode (m : gglaModel) (r : readSeekOffset)
  : option error * readSeekOffset := (None, r).

Definition KV (m : gglaModel) : gmap string value := ∅.

Definition Tensor (m : gglaModel) : list tensor := [].

(** The version check as in [GGLA.Decode]; then the rest of the file is not
    decoded, the stream is sent to its end, whatever [Seek] reports. *)
Definition Decode (c : GGLA.containerGGLA) (r : readSeekOffset)
  : option gglaModel * option error * readSeekOffset :=
  let '(v, r1) := GGLA.read_version c r in
  if v =? 1 then
    let model := newGGLAModel {| GGLA.version := v |} in
    match decode model r1 with
    | (Some err, r2) => (None, Some err, r2)
    | (None, r2) => (Some model, None, snd (Seek 0 SeekEnd r2))
    end
  else (None, Some ErrInvalidVersion, r1).

End GGLAHeader.

(** ** Vocabulary of the further properties *)

(** The tag of the variant of a value, as the constants of Format A number
    them. *)
Definition tag_of (v : value) : Z :=
  match v with
  | VUint8 _ => GGUF.ggufTypeUint8
  | VInt8 _ => GGUF.ggufTypeInt8
  | VUint16 _ => GGUF.ggufTypeUint16
  | VInt16 _ => GGUF.ggufTypeInt16
  | VUint32 _ => GGUF.ggufTypeUint32
  | VInt32 _ => GGUF.ggufTypeInt32
  | VFloat32 _ => GGUF.ggufTypeFloat32
  | VBool _ => GGUF.ggufTypeBool
  | VString _ => GGUF.ggufTypeString
  | VArray _ => GGUF.ggufTypeArray
  | VUint64 _ => GGUF.ggufTypeUint64
  | VInt64 _ => GGUF.ggufTypeInt64
  | VFloat64 _ => GGUF.ggufTypeFloat64
  end.

(** An array is flat when its elements are all of one tag and none of them
    is an array. *)
Definition flat (v : value) : Prop :=
  match v with
  | VArray a =>
      exists atype, Forall (fun x => tag_of x = atype /\ is_array x = false) a
  | _ => True
  end.

(** The unsigned integer of [n] bytes at offset [o] of the source. *)
Definition wire_uint (bo : ByteOrder) (n : nat) (d : list byte) (o : Z) : Z :=
  uint_of bo (take n (drop (Z.to_nat o) d)).

(** The two's complement reading of a [w]-bit unsigned integer. *)
Definition signed (w x : Z) : Z := if x <? 2 ^ (w - 1) then x else x - 2 ^ w.

Module MoreSamples.
Import Samples.

(** An alignment of 0 and no tensor. *)
Definition aligned0 : list byte :=
  header 0 1 ++ str "general.alignment" ++ u32 4 ++ u32 0.

(** A string that announces five bytes and has two. *)
Definition short_string : list byte := u64 5 ++ chars "ab".

(** A string whose length has the top bit set, then two bytes. *)
Definition huge_string : list byte := u64 (2 ^ 63) ++ chars "ab".

(** An array of three 16-bit unsigned integers. *)
Definition array_u16 : list byte := u32 2 ++ u64 3 ++ le_bytes 2 7 ++ le_bytes 2 8 ++ le_bytes 2 9.

(** An array of element tag 255 and no element. *)
Definition array_none : list byte := u32 255 ++ u64 0.

End MoreSamples.

(** * Properties *)

(** ** The primitives *)

Lemma length_string_of_list_byte (l : list byte) :
  String.length (string_of_list_byte l) = length l.
Proof.
  unfold string_of_list_byte.
  induction l as [|b l IH]; simpl; [reflexivity | now rewrite IH].
Qed.

Lemma byte_val_bound (b : byte) : 0 <= byte_val b < 256.
Proof.
  unfold byte_val. pose proof (Byte.to_N_bounded b). lia.
Qed.

Lemma le_uint_bound (bs : list byte) :
  0 <= le_uint bs < 256 ^ Z.of_nat (length bs).
Proof.
  induction bs as [|b bs IH]; simpl le_uint; simpl length.
  - simpl. lia.
  - rewrite Nat2Z.inj_succ, Z.pow_succ_r by lia.
    pose proof (byte_val_bound b). lia.
Qed.

Lemma uint_of_bound (bo : ByteOrder) (bs : list byte) :
  0 <= uint_of bo bs < 256 ^ Z.of_nat (length bs).
Proof.
  destruct bo; simpl.
  - apply le_uint_bound.
  - rewrite <- (length_rev bs). apply le_uint_bound.
Qed.

Lemma ReadFull_inr (n : nat) (r r' : readSeekOffset) (bs : list byte) :
  ReadFull n r = (inr bs, r') ->
  bs = take n (rest r) /\ r' = advance r n /\ (n <= length (rest r))%nat.
Proof.
  unfold ReadFull. destruct (n <=? length (rest r))%nat eqn:Hn; [|discriminate].
  intros [= <- <-]. apply Nat.leb_le in Hn. auto.
Qed.

Lemma ReadFull_ok (n : nat) (r : readSeekOffset) :
  (n <= length (rest r))%nat ->
  ReadFull n r = (inr (take n (rest r)), advance r n).
Proof.
  intros Hn. unfold ReadFull. apply Nat.leb_le in Hn. now rewrite Hn.
Qed.

Lemma binary_Read_inr (bo : ByteOrder) (n : nat) (r r' : readSeekOffset) (x : Z) :
  binary_Read bo n r = (inr x, r') ->
  x = uint_of bo (take n (rest r)) /\ r' = advance r n
  /\ (n <= length (rest r))%nat /\ 0 <= x < 256 ^ Z.of_nat n.
Proof.
  unfold binary_Read. destruct (ReadFull n r) as [[err|bs] r1] eqn:HR; [discriminate|].
  intros [= <- <-]. apply ReadFull_inr in HR as (-> & -> & Hn).
  repeat split; auto; pose proof (uint_of_bound bo (take n (rest r))) as Hb;
    rewrite length_take, Nat.min_l in Hb by lia; lia.
Qed.

Lemma read_uint_inr (bo : ByteOrder) (n : nat) (r r' : readSeekOffset) (x : Z) :
  binary_Read bo n r = (inr x, r') -> GGUF.read_uint bo n r = (x, r').
Proof. unfold GGUF.read_uint. now intros ->. Qed.

Lemma read_uint_inl (bo : ByteOrder) (n : nat) (r r' : readSeekOffset) (err : error) :
  binary_Read bo n r = (inl err, r') -> GGUF.read_uint bo n r = (0, r').
Proof. unfold GGUF.read_uint. now intros ->. Qed.

Lemma int64_small (x : Z) : 0 <= x < 2 ^ 63 -> int64 x = x.
Proof.
  intros Hx. unfold int64, swrap. change (2 ^ (64 - 1)) with (2 ^ 63).
  rewrite Z.mod_small; lia.
Qed.

Lemma CopyN_ok (n : Z) (r : readSeekOffset) :
  0 < n <= Z.of_nat (length (rest r)) ->
  CopyN n r = (inr (take (Z.to_nat n) (rest r)), advance r (Z.to_nat n)).
Proof.
  intros Hn. unfold CopyN.
  destruct (Z.leb_spec n 0); [lia|].
  destruct (Z.leb_spec n (Z.of_nat (length (rest r)))); [reflexivity | lia].
Qed.

Lemma advance_0 (r : readSeekOffset) : advance r 0 = r.
Proof.
  destruct r as [d o]. unfold advance, at_offset; simpl. f_equal. lia.
Qed.

(** ** Strings of the two container versions *)

Lemma readStringV1_ok (bo : ByteOrder) (r r1 : readSeekOffset) (n : Z) :
  binary_Read bo 4 r = (inr n, r1) ->
  1 <= n <= Z.of_nat (length (rest r1)) ->
  let copied := take (Z.to_nat n) (rest r1) in
  GGUF.readStringV1 bo r
  = Ret (inr (string_of_list_byte (removelast copied))) (advance r1 (Z.to_nat n))
  /\ n < 2 ^ 32
  /\ Z.of_nat (String.length (string_of_list_byte (removelast copied))) = n - 1.
Proof.
  intros Hread Hn copied.
  pose proof (binary_Read_inr _ _ _ _ _ Hread) as (_ & _ & _ & Hb).
  change (256 ^ Z.of_nat 4) with (2 ^ 32) in Hb.
  assert (Hlen : length copied = Z.to_nat n)
    by (unfold copied; rewrite length_take; lia).
  unfold GGUF.readStringV1, bind, lift.
  rewrite (read_uint_inr _ _ _ _ _ Hread).
  rewrite int64_small by lia. rewrite CopyN_ok by lia.
  fold copied. unfold GGUF.Truncate. rewrite Hlen.
  rewrite removelast_firstn_len, Hlen.
  destruct (Z.eqb_spec (Z.of_nat (Z.to_nat n) - 1) 0) as [H0|H0].
  - assert (n = 1) by lia. subst n. simpl. unfold ret. repeat split; lia.
  - destruct (Z.ltb_spec (Z.of_nat (Z.to_nat n) - 1) 0); [lia|].
    destruct (Z.ltb_spec (Z.of_nat (Z.to_nat n)) (Z.of_nat (Z.to_nat n) - 1)); [lia|].
    simpl. unfold ret.
    replace (Z.to_nat (Z.of_nat (Z.to_nat n) - 1)) with (Init.Nat.pred (Z.to_nat n)) by lia.
    repeat split; try lia.
    rewrite length_string_of_list_byte, length_take. lia.
Qed.

(** C5: in version 1 the length prefix of a string is a 32-bit count and the
    last byte of the copied buffer is stripped, so the string has one byte
    less than the prefix says; in any other version the prefix is a 64-bit
    count and the string is the copied bytes as they are. *)
Theorem readString_by_version (c : GGUF.containerGGUF) (r r1 : readSeekOffset) (n : Z) :
  (GGUF.Version c = 1 ->
   binary_Read (GGUF.bo c) 4 r = (inr n, r1) ->
   1 <= n <= Z.of_nat (length (rest r1)) ->
   let copied := take (Z.to_nat n) (rest r1) in
   GGUF.readString c r
   = Ret (inr (string_of_list_byte (removelast copied))) (advance r1 (Z.to_nat n))
   /\ n < 2 ^ 32
   /\ Z.of_nat (String.length (string_of_list_byte (removelast copied))) = n - 1)
  /\
  (GGUF.Version c <> 1 ->
   binary_Read (GGUF.bo c) 8 r = (inr n, r1) ->
   n < 2 ^ 63 ->
   n <= Z.of_nat (length (rest r1)) ->
   let copied := take (Z.to_nat n) (rest r1) in
   GGUF.readString c r
   = Ret (inr (string_of_list_byte copied)) (advance r1 (Z.to_nat n))
   /\ Z.of_nat (String.length (string_of_list_byte copied)) = n).
Proof.
  split.
  - intros Hv Hread Hn. unfold GGUF.readString. rewrite Hv. simpl.
    now apply readStringV1_ok.
  - intros Hv Hread Hn63 Hn copied.
    pose proof (binary_Read_inr _ _ _ _ _ Hread) as (_ & _ & _ & Hb).
    unfold GGUF.readString. apply Z.eqb_neq in Hv. rewrite Hv.
    unfold bind, lift. rewrite (read_uint_inr _ _ _ _ _ Hread).
    rewrite int64_small by lia.
    destruct (Z.eq_dec n 0) as [->|Hn0].
    + simpl. unfold ret. rewrite advance_0. split; reflexivity.
    + rewrite CopyN_ok by lia. fold copied. unfold ret. split; [reflexivity|].
      rewrite length_string_of_list_byte. unfold copied. rewrite length_take. lia.
Qed.

Lemma readString_by_version_witness :
  GGUF.readString (Samples.gguf_v 1) (Samples.from_start (Samples.strV1 "llama"))
  = Ret (inr "llama"%string) {| data := Samples.strV1 "llama"; offset := 10 |}
  /\ GGUF.readString (Samples.gguf_v 3) (Samples.from_start (Samples.str "llama"))
     = Ret (inr "llama"%string) {| data := Samples.str "llama"; offset := 13 |}.
Proof.
  split.
  - refine (proj1 (proj1 (readString_by_version (Samples.gguf_v 1)
        (Samples.from_start (Samples.strV1 "llama"))
        {| data := Samples.strV1 "llama"; offset := 4 |} 6) eq_refl eq_refl _)).
    vm_compute. split; discriminate.
  - refine (proj1 (proj2 (readString_by_version (Samples.gguf_v 3)
        (Samples.from_start (Samples.str "llama"))
        {| data := Samples.str "llama"; offset := 8 |} 5) _ eq_refl eq_refl _)).
    + discriminate.
    + vm_compute. discriminate.
Defined.

(** C10: in version 1 a string whose 32-bit length prefix is 0 is not decoded
    to a value: after copying no byte, [readStringV1] truncates its buffer to
    length -1 and panics.  So every string that [readStringV1] returns had a
    length prefix of at least 1 on the wire. *)
Theorem readStringV1_empty_panics (bo : ByteOrder) (r : readSeekOffset) :
  (forall r1, binary_Read bo 4 r = (inr 0, r1) ->
              GGUF.readStringV1 bo r = Panic PanicTruncate)
  /\ (forall s r', GGUF.readStringV1 bo r = Ret (inr s) r' ->
        exists n r1, binary_Read bo 4 r = (inr n, r1) /\ 1 <= n
                     /\ Z.of_nat (String.length s) = n - 1).
Proof.
  assert (H0 : forall r1, GGUF.read_uint bo 4 r = (0, r1) ->
                          GGUF.readStringV1 bo r = Panic PanicTruncate).
  { intros r1 Hr. unfold GGUF.readStringV1, bind, lift. rewrite Hr. reflexivity. }
  split.
  - intros r1 Hr. apply (H0 r1). now apply read_uint_inr.
  - intros s r' Hs.
    destruct (binary_Read bo 4 r) as [[err|n] r1] eqn:Hread.
    + rewrite (H0 r1) in Hs by (now apply read_uint_inl with err). discriminate.
    + exists n, r1. split; [reflexivity|].
      pose proof (binary_Read_inr _ _ _ _ _ Hread) as (_ & _ & _ & Hb).
      change (256 ^ Z.of_nat 4) with (2 ^ 32) in Hb.
      destruct (Z.eq_dec n 0) as [->|Hn0].
      { rewrite (H0 r1) in Hs by (now apply read_uint_inr). discriminate. }
      split; [lia|].
      destruct (Z.leb_spec n (Z.of_nat (length (rest r1)))) as [Hle|Hgt].
      * destruct (readStringV1_ok bo r r1 n Hread ltac:(lia)) as (Heq & _ & Hlen).
        rewrite Heq in Hs. injection Hs as <- _. exact Hlen.
      * unfold GGUF.readStringV1, bind, lift in Hs.
        rewrite (read_uint_inr _ _ _ _ _ Hread) in Hs.
        rewrite int64_small in Hs by lia. unfold CopyN in Hs.
        destruct (Z.leb_spec n 0); [lia|].
        destruct (Z.leb_spec n (Z.of_nat (length (rest r1)))); [lia|].
        discriminate.
Qed.

Lemma readStringV1_empty_panics_witness :
  GGUF.readStringV1 LittleEndian (Samples.from_start (Samples.u32 0))
  = Panic PanicTruncate.
Proof.
  exact (proj1 (readStringV1_empty_panics LittleEndian
                  (Samples.from_start (Samples.u32 0)))
               {| data := Samples.u32 0; offset := 4 |} eq_refl).
Defined.

(** ** The version check of Format B *)

(** C8: the Format-B decoder reads a 4-byte unsigned version and accepts
    only 1: whenever the version read is another value, [Decode] returns the
    invalid-version error and no model, and the stream is left just after
    the four bytes of the version. *)
Theorem Decode_rejects_version (oracle : SizeOracle) (fuel : nat)
    (c : GGLA.containerGGLA) (r r1 : readSeekOffset) (v : Z) :
  binary_Read LittleEndian 4 r = (inr v, r1) ->
  v <> 1 ->
  GGLA.Decode oracle fuel c r = Some (None, Some ErrInvalidVersion, r1)
  /\ r1 = advance r 4 /\ 0 <= v < 2 ^ 32.
Proof.
  intros Hread Hv.
  pose proof (binary_Read_inr _ _ _ _ _ Hread) as (_ & Hr1 & _ & Hb).
  unfold GGLA.Decode, GGLA.read_version, GGLA.read_u32. rewrite Hread.
  apply Z.eqb_neq in Hv. rewrite Hv. auto.
Qed.

Lemma Decode_rejects_version_witness :
  GGLA.Decode float_oracle 0 Samples.ggla0 (Samples.from_start (Samples.u32 2))
  = Some (None, Some ErrInvalidVersion, {| data := Samples.u32 2; offset := 4 |}).
Proof.
  refine (proj1 (Decode_rejects_version float_oracle 0 Samples.ggla0
                   (Samples.from_start (Samples.u32 2))
                   {| data := Samples.u32 2; offset := 4 |} 2 eq_refl _)).
  discriminate.
Defined.

(** ** The key-value loop of Format A *)

Lemma bind_Ret {A B} (m : M A) (k : A -> M B) (r r' : readSeekOffset) (b : B) :
  (x <- m;; k x) r = Ret b r' ->
  exists a r1, m r = Ret a r1 /\ k a r1 = Ret b r'.
Proof.
  unfold bind. destruct (m r) as [a r1|p]; [eauto | discriminate].
Qed.

Lemma lift_Ret {A} (f : readSeekOffset -> A * readSeekOffset) (r : readSeekOffset) :
  lift f r = Ret (fst (f r)) (snd (f r)).
Proof. unfold lift. now destruct (f r). Qed.

Ltac inv_bind H :=
  let a := fresh "a" in
  let r1 := fresh "r" in
  let Ha := fresh "Ha" in
  apply bind_Ret in H as (a & r1 & Ha & H).

Lemma ok_not_array {A} (f : A -> value) (m : M A) (r r' : readSeekOffset) (v : value) :
  (forall x, is_array (f x) = false) ->
  GGUF.ok f m r = Ret (inr v) r' -> is_array v = false.
Proof.
  intros Hf H. unfold GGUF.ok in H. inv_bind H. injection H as <- _. apply Hf.
Qed.

Lemma str_not_array (m : M (error + string)) (r r' : readSeekOffset) (v : value) :
  GGUF.str m r = Ret (inr v) r' -> is_array v = false.
Proof.
  intros H. unfold GGUF.str in H. inv_bind H.
  destruct a; [discriminate|]. now injection H as <- _.
Qed.

Lemma readValue_array (c : GGUF.containerGGUF) (vtype : Z)
    (r r' : readSeekOffset) (v : value) :
  GGUF.readValue c vtype r = Ret (inr v) r' ->
  (is_array v = true <-> vtype = GGUF.ggufTypeArray).
Proof.
  unfold GGUF.readValue. intros H.
  repeat match type of H with
         | (if ?x =? ?y then _ else _) _ = _ =>
             destruct (Z.eqb_spec x y) as [->|]
         end;
    try (split; [intros Ha | discriminate];
         first [ apply ok_not_array in H; [congruence | reflexivity]
               | apply str_not_array in H; congruence ]).
  - inv_bind H. destruct a; [discriminate|]. injection H as <- _. now split.
  - discriminate.
Qed.

Lemma store_spec (kv : KV) (k : string) (vtype : Z) (v : value) :
  GGUF.store kv k vtype v
  = if decide (vtype = GGUF.ggufTypeArray \/ k = GGUF.chat_template)
    then kv else <[k := v]> kv.
Proof.
  unfold GGUF.store.
  destruct (Z.eqb_spec vtype GGUF.ggufTypeArray) as [Hv|Hv]; simpl.
  - destruct (decide _) as [|Hn]; [reflexivity | exfalso; auto].
  - destruct (String.eqb_spec k GGUF.chat_template) as [Hk|Hk]; simpl.
    + destruct (decide _) as [|Hn]; [reflexivity | exfalso; auto].
    + destruct (decide _) as [[|]|]; [contradiction.. | reflexivity].
Qed.

Lemma filtered_insert (kv : KV) (k : string) (v : value) :
  filtered kv -> is_array v = false -> k <> GGUF.chat_template ->
  filtered (<[k := v]> kv).
Proof.
  intros Hkv Hv Hk k' v' Hl.
  destruct (decide (k = k')) as [<-|Hne].
  - rewrite lookup_insert_eq in Hl. injection Hl as <-. auto.
  - rewrite lookup_insert_ne in Hl by assumption. now apply Hkv.
Qed.

Lemma decode_kv_inv (c : GGUF.containerGGUF) (kv kv1 : KV) (r r1 : readSeekOffset) :
  GGUF.decode_kv c kv r = Ret (inr kv1) r1 ->
  exists k ra vtype rb v,
    GGUF.readString c r = Ret (inr k) ra
    /\ GGUF.readU32 (GGUF.bo c) ra = Ret vtype rb
    /\ GGUF.readValue c vtype rb = Ret (inr v) r1
    /\ kv1 = GGUF.store kv k vtype v.
Proof.
  intros H. unfold GGUF.decode_kv in H. inv_bind H.
  destruct a as [err|k]; [discriminate|].
  inv_bind H. inv_bind H. destruct a0 as [err|v]; [discriminate|].
  injection H as <- <-. exists k, r0, a, r2, v. auto.
Qed.

Lemma decode_kv_filtered (c : GGUF.containerGGUF) (kv kv1 : KV) (r r1 : readSeekOffset) :
  GGUF.decode_kv c kv r = Ret (inr kv1) r1 -> filtered kv -> filtered kv1.
Proof.
  intros H Hkv.
  apply decode_kv_inv in H as (k & ra & vtype & rb & v & _ & _ & Hv & ->).
  rewrite store_spec. destruct (decide _) as [|Hn]; [assumption|].
  apply filtered_insert; [assumption | | tauto].
  apply readValue_array in Hv. destruct (is_array v); [|reflexivity].
  exfalso. apply Hn. left. now apply Hv.
Qed.

Lemma decode_kvs_filtered (c : GGUF.containerGGUF) (n : nat) :
  forall (kv kv1 : KV) (r r1 : readSeekOffset) (e : option error),
    GGUF.decode_kvs c n kv r = Ret (kv1, e) r1 -> filtered kv -> filtered kv1.
Proof.
  induction n as [|n IH]; intros kv kv1 r r1 e H Hkv; simpl in H.
  - now injection H as <- _ _.
  - inv_bind H. destruct a as [err|kv'].
    + now injection H as <- _ _.
    + eapply IH; [exact H|]. eapply decode_kv_filtered; eauto.
Qed.

(** What a [decode] that returns has done. *)
Lemma decode_inv (oracle : SizeOracle) (llm m : GGUF.modelGGUF)
    (r r' : readSeekOffset) (e : option error) :
  GGUF.decode oracle llm r = Ret (m, e) r' ->
  let c := GGUF.container llm in
  exists kv1 e1 r1,
    GGUF.decode_kvs c (Z.to_nat (GGUF.modelNumKV c)) (GGUF.kv llm) r = Ret (kv1, e1) r1
    /\ ((exists err, e1 = Some err /\ e = e1 /\ r' = r1
          /\ m = {| GGUF.container := c; GGUF.kv := kv1;
                    GGUF.tensors := GGUF.tensors llm;
                    GGUF.parameters := GGUF.parameters llm |})
        \/ (e1 = None /\ exists ts params e2 r2,
              GGUF.decode_tensors oracle c (Z.to_nat (GGUF.modelNumTensor c))
                (GGUF.tensors llm) (GGUF.parameters llm) r1 = Ret (ts, params, e2) r2
              /\ ((exists err, e2 = Some err /\ e = e2 /\ r' = r2
                    /\ m = {| GGUF.container := c; GGUF.kv := kv1;
                              GGUF.tensors := ts; GGUF.parameters := params |})
                  \/ (e2 = None /\ e = None
                      /\ GGUF.skip_data oracle
                           (<[GGUF.parameter_count := VUint64 params]> kv1) ts r2
                         = Ret tt r'
                      /\ m = {| GGUF.container := c;
                                GGUF.kv := <[GGUF.parameter_count := VUint64 params]> kv1;
                                GGUF.tensors := ts; GGUF.parameters := params |})))).
Proof.
  intros H c. unfold GGUF.decode in H. fold c in H.
  inv_bind H. destruct a as [kv1 e1]. exists kv1, e1, r0. split; [exact Ha|].
  destruct e1 as [err|].
  - left. exists err. now injection H as <- <- <-.
  - right. split; [reflexivity|]. inv_bind H. destruct a as [[ts params] e2].
    exists ts, params, e2, r1. split; [exact Ha0|].
    destruct e2 as [err|].
    + left. exists err. now injection H as <- <- <-.
    + right. inv_bind H. destruct a. now injection H as <- <- <-.
Qed.

(** [Decode] reads the header, which cannot fail, and calls [decode] on a
    fresh model. *)
Lemma Decode_inv (oracle : SizeOracle) (c : GGUF.containerGGUF) (r : readSeekOffset) :
  exists c' r0,
    GGUF.Decode oracle c r = GGUF.decode oracle (GGUF.newModelGGUF c') r0
    /\ GGUF.bo c' = GGUF.bo c.
Proof.
  unfold GGUF.Decode, bind at 1. rewrite lift_Ret.
  destruct (fst (GGUF.read_version c r) =? 1); unfold bind at 1, bind at 1;
    rewrite lift_Ret; unfold ret; eexists _, _; split; reflexivity.
Qed.

(** C2: whatever the input, the store of the model that [Decode] returns
    holds no array value and no entry under "tokenizer.chat_template"; a
    round of the key-value loop that decodes key [k], tag [vtype] and value
    [v] leaves the store as it was when the tag is the array tag (which is
    when [v] is an array) or [k] is that literal, and otherwise inserts [v]
    under [k]. *)
Theorem kv_never_array_nor_chat_template (oracle : SizeOracle)
    (c : GGUF.containerGGUF) (r r' : readSeekOffset)
    (m : GGUF.modelGGUF) (e : option error) :
  GGUF.Decode oracle c r = Ret (m, e) r' ->
  (forall k v, GGUF.kv m !! k = Some v ->
               is_array v = false /\ k <> "tokenizer.chat_template"%string)
  /\ (forall c0 (kv0 kv1 : KV) r0 r1,
        GGUF.decode_kv c0 kv0 r0 = Ret (inr kv1) r1 ->
        exists k ra vtype rb v,
          GGUF.readString c0 r0 = Ret (inr k) ra
          /\ GGUF.readU32 (GGUF.bo c0) ra = Ret vtype rb
          /\ GGUF.readValue c0 vtype rb = Ret (inr v) r1
          /\ (is_array v = true <-> vtype = 9)
          /\ kv1 = if decide (vtype = 9 \/ k = "tokenizer.chat_template"%string)
                   then kv0 else <[k := v]> kv0).
Proof.
  intros HD. split.
  - destruct (Decode_inv oracle c r) as (c' & r0 & Heq & _). rewrite Heq in HD.
    apply decode_inv in HD as (kv1 & e1 & r1 & Hkvs & Hrest).
    assert (Hf : filtered kv1).
    { eapply decode_kvs_filtered; [exact Hkvs|]. intros k v Hl.
      simpl in Hl. now rewrite lookup_empty in Hl. }
    destruct Hrest as [(err & _ & _ & _ & ->)
                      |(_ & ts & params & e2 & r2 & _ &
                        [(err & _ & _ & _ & ->)|(_ & _ & _ & ->)])];
      simpl; try exact Hf.
    apply filtered_insert; [exact Hf | reflexivity | discriminate].
  - intros c0 kv0 kv1 r0 r1 H.
    apply decode_kv_inv in H as (k & ra & vtype & rb & v & Hk & Ht & Hv & ->).
    exists k, ra, vtype, rb, v. repeat split; auto.
    + now apply (readValue_array c0 vtype rb r1 v).
    + now apply (readValue_array c0 vtype rb r1 v).
    + apply store_spec.
Qed.

(** ** The tensor loop of Format A and the parameter count *)

Lemma uint64_idem (x : Z) : uint64 (uint64 x) = uint64 x.
Proof. unfold uint64, wrap. apply Z.mod_mod. lia. Qed.

Lemma uint64_add_l (x y : Z) : uint64 (uint64 x + y) = uint64 (x + y).
Proof. unfold uint64, wrap. apply Zplus_mod_idemp_l. Qed.

Lemma decode_tensors_total (oracle : SizeOracle) (c : GGUF.containerGGUF) (n : nat) :
  forall (ts ts' : list tensor) (p p' : Z) (e : option error) (r r' : readSeekOffset),
    GGUF.decode_tensors oracle c n ts p r = Ret (ts', p', e) r' ->
    exists new,
      ts' = ts ++ new
      /\ uint64 p' = uint64 (p + total_parameters oracle new)
      /\ (uint64 p = p -> uint64 p' = p').
Proof.
  induction n as [|n IH]; intros ts ts' p p' e r r' H; simpl in H.
  - injection H as <- <- _ _. exists []. rewrite app_nil_r. simpl.
    rewrite Z.add_0_r. auto.
  - inv_bind H. destruct a as [err|t].
    + injection H as <- <- _ _. exists []. rewrite app_nil_r. simpl.
      rewrite Z.add_0_r. auto.
    + apply IH in H as (new & -> & Hsum & Hred).
      exists (t :: new). rewrite <- app_assoc. simpl. repeat split.
      * rewrite Hsum, uint64_add_l. f_equal. lia.
      * intros _. apply Hred, uint64_idem.
Qed.

(** C7: after a [Decode] that returns no error, the store holds
    "general.parameter_count", whose value is the sum (a [uint64], like the
    counter of the source) of the parameter counts the oracle gives for the
    tensors of the model, in their order; the key is written after the
    stream's own entries, whatever they were. *)
Theorem parameter_count_patched (oracle : SizeOracle) (c : GGUF.containerGGUF)
    (r r' : readSeekOffset) (m : GGUF.modelGGUF) :
  GGUF.Decode oracle c r = Ret (m, None) r' ->
  GGUF.kv m !! "general.parameter_count"%string
  = Some (VUint64 (uint64 (total_parameters oracle (GGUF.tensors m))))
  /\ GGUF.parameters m = uint64 (total_parameters oracle (GGUF.tensors m)).
Proof.
  intros HD. destruct (Decode_inv oracle c r) as (c' & r0 & Heq & _).
  rewrite Heq in HD.
  apply decode_inv in HD as (kv1 & e1 & r1 & _ & Hrest).
  destruct Hrest as [(err & -> & [=] & _)
                    |(_ & ts & params & e2 & r2 & Hts &
                      [(err & -> & [=] & _)|(_ & _ & _ & ->)])].
  apply decode_tensors_total in Hts as (new & Hnew & Hsum & Hred).
  simpl in Hnew. subst ts. simpl.
  assert (Hp : params = uint64 (total_parameters oracle new)).
  { rewrite <- Hred by reflexivity. exact Hsum. }
  split; [|exact Hp].
  unfold GGUF.parameter_count. rewrite lookup_insert_eq. now rewrite <- Hp.
Qed.

(** ** Alignment and the skipped data section *)

Lemma round_up_smallest (A S : Z) :
  0 < A ->
  (A | round_up A S) /\ S <= round_up A S
  /\ forall m, (A | m) -> S <= m -> round_up A S <= m.
Proof.
  intros HA. unfold round_up. repeat split.
  - apply Z.divide_factor_l.
  - pose proof (Z.mul_div_le (S + A - 1) A HA).
    pose proof (Z.mod_pos_bound (S + A - 1) A HA).
    pose proof (Z.div_mod (S + A - 1) A). lia.
  - intros m [q ->] Hm.
    assert ((S + A - 1) / A <= q); [|nia].
    apply Z.lt_succ_r. apply Z.div_lt_upper_bound; lia.
Qed.

Lemma round_up_aligned (A S : Z) : 0 < A -> S mod A = 0 -> round_up A S = S.
Proof.
  intros HA Hm. unfold round_up.
  pose proof (Z.div_mod S A ltac:(lia)) as HS. rewrite Hm, Z.add_0_r in HS.
  replace (S + A - 1) with ((S / A) * A + (A - 1)) by lia.
  rewrite Z.div_add_l by lia. rewrite (Z.div_small (A - 1) A) by lia. lia.
Qed.

Lemma round_up_next (A S : Z) :
  0 < A -> S mod A <> 0 -> round_up A S = S + (A - S mod A).
Proof.
  intros HA Hm. unfold round_up.
  pose proof (Z.div_mod S A ltac:(lia)) as HS.
  pose proof (Z.mod_pos_bound S A HA) as Hb.
  replace (S + A - 1) with ((S / A + 1) * A + (S mod A - 1)) by lia.
  rewrite Z.div_add_l by lia. rewrite (Z.div_small (S mod A - 1) A) by lia. lia.
Qed.

(** The mask of the source rounds up when the alignment is a power of two. *)
Lemma land_lnot_round_up (k x : Z) :
  0 <= k ->
  Z.land (x + 2 ^ k - 1) (Z.lnot (2 ^ k - 1)) = round_up (2 ^ k) x.
Proof.
  intros Hk. unfold round_up.
  rewrite <- Z.ldiff_land.
  replace (2 ^ k - 1) with (Z.ones k) by (rewrite Z.ones_equiv; lia).
  rewrite Z.ldiff_ones_r by assumption.
  rewrite Z.shiftl_mul_pow2, Z.shiftr_div_pow2 by assumption. lia.
Qed.

Lemma Seek_current_ok (off : Z) (r : readSeekOffset) :
  0 <= offset r + off < 2 ^ 63 ->
  Seek off SeekCurrent r = (None, at_offset r (offset r + off)).
Proof.
  intros H. unfold Seek.
  destruct (Z.leb_spec 0 (offset r + off)); [|lia].
  destruct (Z.ltb_spec (offset r + off) (2 ^ 63)); [reflexivity | lia].
Qed.

Lemma fold_round_up_mono (oracle : SizeOracle) (A : Z) (ts : list tensor) :
  0 < A ->
  Forall (fun t => 0 <= tensor_size oracle t) ts ->
  forall o, o <= fold_left (fun o t => o + round_up A (tensor_size oracle t)) ts o.
Proof.
  intros HA Hts. induction Hts as [|t ts Ht _ IH]; intros o; simpl; [lia|].
  specialize (IH (o + round_up A (tensor_size oracle t))).
  pose proof (round_up_smallest A (tensor_size oracle t) HA) as (_ & Hle & _). lia.
Qed.

(** A multiple of [2^k] below [2^63] leaves room for [2^k - 1] more. *)
Lemma round_up_room (k S : Z) :
  0 <= k < 63 -> 0 <= S -> round_up (2 ^ k) S < 2 ^ 63 ->
  S + 2 ^ k - 1 < 2 ^ 63.
Proof.
  intros Hk HS Hlt.
  assert (HA : 0 < 2 ^ k) by (apply Z.pow_pos_nonneg; lia).
  pose proof (round_up_smallest (2 ^ k) S HA) as (_ & Hle & _).
  unfold round_up in *.
  assert (H63 : 2 ^ 63 = 2 ^ k * 2 ^ (63 - k))
    by (rewrite <- Z.pow_add_r by lia; f_equal; lia).
  rewrite H63 in *.
  assert ((S + 2 ^ k - 1) / 2 ^ k < 2 ^ (63 - k)) by nia.
  nia.
Qed.

Lemma skip_tensors_ok (oracle : SizeOracle) (k : Z) (ts : list tensor) :
  0 <= k < 32 ->
  Forall (fun t => 0 <= tensor_size oracle t) ts ->
  forall r,
    0 <= offset r ->
    fold_left (fun o t => o + round_up (2 ^ k) (tensor_size oracle t)) ts (offset r)
      < 2 ^ 63 ->
    GGUF.skip_tensors oracle (2 ^ k) ts r
    = Ret tt (at_offset r
                (fold_left (fun o t => o + round_up (2 ^ k) (tensor_size oracle t))
                           ts (offset r))).
Proof.
  intros Hk Hts.
  assert (HA : 0 < 2 ^ k) by (apply Z.pow_pos_nonneg; lia).
  assert (HA32 : 2 ^ k < 2 ^ 32) by (apply Z.pow_lt_mono_r; lia).
  induction Hts as [|t ts Ht Hts IH]; intros r Hr Hend; simpl.
  - unfold ret. destruct r; reflexivity.
  - simpl in Hend.
    pose proof (fold_round_up_mono oracle (2 ^ k) ts HA Hts
                  (offset r + round_up (2 ^ k) (tensor_size oracle t))) as Hmono.
    pose proof (round_up_smallest (2 ^ k) (tensor_size oracle t) HA) as (_ & Hle & _).
    assert (Hroom : tensor_size oracle t + 2 ^ k - 1 < 2 ^ 63)
      by (apply round_up_room; lia).
    assert (Hpad : GGUF.padded oracle (2 ^ k) t
                   = round_up (2 ^ k) (tensor_size oracle t)).
    { unfold GGUF.padded.
      rewrite (int64_small (tensor_size oracle t)) by lia.
      rewrite (int64_small (2 ^ k)) by lia.
      rewrite (int64_small (2 ^ k - 1)) by lia.
      rewrite int64_small by lia.
      now apply land_lnot_round_up. }
    unfold bind, GGUF.seek_current, lift. rewrite Hpad.
    rewrite Seek_current_ok by lia. simpl.
    rewrite IH by (simpl; lia). reflexivity.
Qed.

Lemma skip_data_ok (oracle : SizeOracle) (kv : KV) (k : Z) (ts : list tensor)
    (r : readSeekOffset) :
  GGUF.alignment_of kv = 2 ^ k ->
  0 <= k < 32 ->
  0 <= offset r ->
  offset r mod 2 ^ k <> 0 ->
  Forall (fun t => 0 <= tensor_size oracle t) ts ->
  aligned_end oracle (2 ^ k) (offset r) ts < 2 ^ 63 ->
  GGUF.skip_data oracle kv ts r
  = Ret tt (at_offset r (aligned_end oracle (2 ^ k) (offset r) ts)).
Proof.
  intros HAl Hk Hr Hm Hts Hend.
  assert (HA : 0 < 2 ^ k) by (apply Z.pow_pos_nonneg; lia).
  assert (HA32 : 2 ^ k < 2 ^ 32) by (apply Z.pow_lt_mono_r; lia).
  pose proof (Z.mod_pos_bound (offset r) (2 ^ k) HA) as Hb.
  pose proof (fold_round_up_mono oracle (2 ^ k) ts HA Hts
                (round_up (2 ^ k) (offset r))) as Hmono.
  fold (aligned_end oracle (2 ^ k) (offset r) ts) in Hmono.
  pose proof (round_up_next (2 ^ k) (offset r) HA Hm) as Hnext.
  unfold GGUF.skip_data. rewrite HAl. rewrite (int64_small (2 ^ k)) by lia.
  destruct (Z.eqb_spec (2 ^ k) 0); [lia|].
  rewrite Z.rem_mod_nonneg by lia.
  rewrite int64_small by lia.
  unfold bind, GGUF.seek_current, lift.
  rewrite Seek_current_ok by lia. simpl.
  rewrite skip_tensors_ok; simpl; rewrite <- ?Hnext; auto; try lia.
Qed.

Lemma decode_ok (oracle : SizeOracle) (llm : GGUF.modelGGUF)
    (r r1 r2 r' : readSeekOffset) (kv1 : KV) (ts : list tensor) (params : Z) :
  let c := GGUF.container llm in
  GGUF.decode_kvs c (Z.to_nat (GGUF.modelNumKV c)) (GGUF.kv llm) r
  = Ret (kv1, None) r1 ->
  GGUF.decode_tensors oracle c (Z.to_nat (GGUF.modelNumTensor c))
    (GGUF.tensors llm) (GGUF.parameters llm) r1 = Ret (ts, params, None) r2 ->
  GGUF.skip_data oracle (<[GGUF.parameter_count := VUint64 params]> kv1) ts r2
  = Ret tt r' ->
  GGUF.decode oracle llm r
  = Ret ({| GGUF.container := c;
            GGUF.kv := <[GGUF.parameter_count := VUint64 params]> kv1;
            GGUF.tensors := ts; GGUF.parameters := params |}, None) r'.
Proof.
  intros c Hkvs Hts Hskip. unfold GGUF.decode. fold c.
  unfold bind at 1. rewrite Hkvs. unfold bind at 1. rewrite Hts.
  unfold bind. now rewrite Hskip.
Qed.

(** C1 (amended): once the tensors are decoded, the alignment [A] is the
    value under "general.alignment" when the store holds an unsigned 32-bit
    value there, and 32 otherwise.  When [A] is a power of two, the stream
    position is not a multiple of [A] and the skipped positions fit a signed
    64-bit offset, [decode] moves the stream to the next multiple of [A] and
    then on, for every tensor in declaration order, by the smallest multiple
    of [A] that is not less than the byte size of the tensor. *)
Theorem data_section_skipped (oracle : SizeOracle) (llm : GGUF.modelGGUF)
    (r r1 r2 : readSeekOffset) (kv1 : KV) (ts : list tensor) (params k : Z) :
  let c := GGUF.container llm in
  GGUF.decode_kvs c (Z.to_nat (GGUF.modelNumKV c)) (GGUF.kv llm) r
  = Ret (kv1, None) r1 ->
  GGUF.decode_tensors oracle c (Z.to_nat (GGUF.modelNumTensor c))
    (GGUF.tensors llm) (GGUF.parameters llm) r1 = Ret (ts, params, None) r2 ->
  let store : KV := <["general.parameter_count"%string := VUint64 params]> kv1 in
  let A := match store !! "general.alignment"%string with
           | Some (VUint32 a) => a
           | _ => 32
           end in
  A = 2 ^ k -> 0 <= k < 32 ->
  0 <= offset r2 -> offset r2 mod A <> 0 ->
  Forall (fun t => 0 <= tensor_size oracle t) ts ->
  aligned_end oracle A (offset r2) ts < 2 ^ 63 ->
  exists m r',
    GGUF.decode oracle llm r = Ret (m, None) r'
    /\ GGUF.kv m = store /\ GGUF.tensors m = ts
    /\ data r' = data r2
    /\ offset r' = aligned_end oracle A (offset r2) ts
    /\ forall S, (A | round_up A S) /\ S <= round_up A S
                 /\ forall n, (A | n) -> S <= n -> round_up A S <= n.
Proof.
  intros c Hkvs Hts store A HA Hk Hr2 Hmod Hsizes Hend.
  assert (Hskip : GGUF.skip_data oracle store ts r2
                  = Ret tt (at_offset r2 (aligned_end oracle A (offset r2) ts))).
  { rewrite HA in *. now apply skip_data_ok. }
  eexists _, _. split; [eapply decode_ok; eassumption|].
  repeat split; try reflexivity.
  all: apply round_up_smallest; rewrite HA; apply Z.pow_pos_nonneg; lia.
Qed.

Lemma data_section_skipped_witness :
  exists m r',
    GGUF.decode float_oracle (GGUF.newModelGGUF (Samples.gguf_v3 2 1))
      (Samples.after_header Samples.aligned64) = Ret (m, None) r'
    /\ offset r' = 320.
Proof.
  edestruct (data_section_skipped float_oracle
               (GGUF.newModelGGUF (Samples.gguf_v3 2 1))
               (Samples.after_header Samples.aligned64)
               {| data := data (Samples.after_header Samples.aligned64); offset := 57 |}
               {| data := data (Samples.after_header Samples.aligned64); offset := 131 |}
               (<["general.alignment"%string := VUint32 64]> ∅)
               [ {| Name := "a"; Kind := 0; t_offset := 0; Shape := [2; 3] |};
                 {| Name := "b"; Kind := 0; t_offset := 64; Shape := [4] |} ]
               10 6)
    as (m & r' & Hdec & _ & _ & _ & Hoff & _).
  - vm_compute. reflexivity.
  - vm_compute. reflexivity.
  - vm_compute. reflexivity.
  - lia.
  - simpl. lia.
  - vm_compute. discriminate.
  - repeat constructor; vm_compute; discriminate.
  - vm_compute. reflexivity.
  - exists m, r'. split; [exact Hdec|]. rewrite Hoff. vm_compute. reflexivity.
Defined.

Lemma data_section_skipped_counterexample :
  let llm := GGUF.newModelGGUF (Samples.gguf_v3 1 1) in
  let r := Samples.after_header Samples.aligned24 in
  let t := {| Name := "t"; Kind := 0; t_offset := 0; Shape := [1] |} in
  exists kv1 r1 r2 m r',
    GGUF.decode_kvs (Samples.gguf_v3 1 1) 1 ∅ r = Ret (kv1, None) r1
    /\ GGUF.decode_tensors float_oracle (Samples.gguf_v3 1 1) 1 [] 0 r1
       = Ret ([t], 1, None) r2
    /\ GGUF.Decode float_oracle Samples.gguf_le (Samples.after_magic Samples.aligned24)
       = GGUF.decode float_oracle llm r
    /\ GGUF.decode float_oracle llm r = Ret (m, None) r'
    /\ GGUF.kv m !! "general.alignment"%string = Some (VUint32 24)
    /\ GGUF.tensors m = [t]
    /\ tensor_size float_oracle t = 4
    /\ offset r2 = 90
    /\ offset r' = 104
    /\ aligned_end float_oracle 24 (offset r2) [t] = 120
    /\ offset r' <> aligned_end float_oracle 24 (offset r2) [t].
Proof.
  intros llm r t.
  eexists _, _, _, _, _.
  split; [vm_compute; reflexivity|].
  split; [vm_compute; reflexivity|].
  split; [vm_compute; reflexivity|].
  split; [vm_compute; reflexivity|].
  repeat split; vm_compute; try reflexivity; discriminate.
Qed.

(** The pad before the data section when the descriptors end on a multiple
    of the alignment: the stream moves on by a whole alignment. *)
Example pad_from_aligned_position :
  exists kv1 r1 m r',
    GGUF.decode_kvs (Samples.gguf_v3 0 1) 1 ∅
      (Samples.after_header Samples.ends_at_64) = Ret (kv1, None) r1
    /\ offset r1 = 64
    /\ GGUF.Decode float_oracle Samples.gguf_le (Samples.after_magic Samples.ends_at_64)
       = Ret (m, None) r'
    /\ GGUF.alignment_of (GGUF.kv m) = 32
    /\ GGUF.tensors m = []
    /\ offset r' = 96.
Proof.
  eexists _, _, _, _.
  split; [vm_compute; reflexivity|].
  split; [vm_compute; reflexivity|].
  split; [vm_compute; reflexivity|].
  repeat split; vm_compute; reflexivity.
Qed.

(** ** Tags that are refused *)

Lemma decode_kvs_app (c : GGUF.containerGGUF) (i : nat) :
  forall (kv kv_i : KV) (r r_i : readSeekOffset) (n : nat),
    GGUF.decode_kvs c i kv r = Ret (kv_i, None) r_i ->
    GGUF.decode_kvs c (i + n) kv r = GGUF.decode_kvs c n kv_i r_i.
Proof.
  induction i as [|i IH]; intros kv kv_i r r_i n H; simpl in H.
  - now injection H as <- <-.
  - simpl. unfold bind in *.
    destruct (GGUF.decode_kv c kv r) as [[err|kv'] r1|p]; try discriminate.
    now apply IH.
Qed.

Lemma readValue_invalid (c : GGUF.containerGGUF) (vtype : Z) :
  ~ 0 <= vtype <= 12 ->
  GGUF.readValue c vtype = ret (inl (ErrInvalidType vtype)).
Proof.
  intros H. unfold GGUF.readValue.
  repeat match goal with
         | |- (if ?x =? ?y then _ else _) = _ =>
             destruct (Z.eqb_spec x y) as [->|];
             [exfalso; apply H; vm_compute; split; discriminate|]
         end.
  reflexivity.
Qed.

Lemma readElem_invalid (c : GGUF.containerGGUF) (atype : Z) :
  ~ valid_elem c atype ->
  (if GGUF.Version c =? 1 then GGUF.readElemV1 (GGUF.bo c) atype
   else GGUF.readElem c atype) = ret (inl (ErrInvalidArrayType atype)).
Proof.
  intros H. unfold valid_elem in H.
  destruct (Z.eqb_spec (GGUF.Version c) 1) as [Hv|Hv];
    unfold GGUF.readElemV1, GGUF.readElem;
    repeat match goal with
           | |- (if ?x =? ?y then _ else _) = _ =>
               destruct (Z.eqb_spec x y) as [->|];
               [exfalso; apply H; vm_compute; intuition discriminate|]
           end;
    reflexivity.
Qed.

Lemma decode_kv_bad (c : GGUF.containerGGUF) (r r' : readSeekOffset) (e : error) :
  bad_tag c r e r' -> forall kv : KV, GGUF.decode_kv c kv r = Ret (inl e) r'.
Proof.
  intros [k r1 vtype r2 Hk Ht Hbad | k r1 r2 atype r3 n r4 Hk Ht Ha Hn Hn1 Hbad] kv;
    unfold GGUF.decode_kv; unfold bind at 1; rewrite Hk;
    unfold bind at 1; unfold GGUF.readU32 at 1; rewrite lift_Ret;
    rewrite (read_uint_inr _ _ _ _ _ Ht); simpl fst; simpl snd.
  - rewrite readValue_invalid by assumption. reflexivity.
  - pose proof (readElem_invalid c atype Hbad) as Helem.
    assert (Hnat : exists n', Z.to_nat n = S n') by (exists (Z.to_nat n - 1)%nat; lia).
    destruct Hnat as [n' Hnat].
    change (GGUF.readValue c 9) with
      (a <- GGUF.readArray c;;
       match a with
       | inl err => ret (inl err)
       | inr a => ret (inr (VArray a))
       end).
    unfold GGUF.readArray, GGUF.readArrayV1.
    destruct (GGUF.Version c =? 1);
      unfold bind at 1; unfold bind at 1; unfold bind at 1;
      unfold GGUF.readU32 at 1; rewrite lift_Ret;
      rewrite (read_uint_inr _ _ _ _ _ Ha); simpl fst; simpl snd;
      unfold bind at 1; unfold GGUF.readU32, GGUF.readU64; rewrite lift_Ret;
      rewrite (read_uint_inr _ _ _ _ _ Hn); simpl fst; simpl snd;
      rewrite Hnat; simpl GGUF.readElems; rewrite Helem; reflexivity.
Qed.

(** C4 (amended): when the key-value loop comes to an entry whose 32-bit tag
    is none of 0 to 12, or to an array of at least one element whose element
    tag is not one that [readArray] decodes (the array tag is none), [decode]
    stops there with an error that carries the tag; the model is left with
    the entries stored before. *)
Theorem invalid_tag_is_fatal (oracle : SizeOracle) (llm : GGUF.modelGGUF)
    (r r_i r' : readSeekOffset) (i : nat) (kv_i : KV) (e : error) :
  let c := GGUF.container llm in
  (i < Z.to_nat (GGUF.modelNumKV c))%nat ->
  GGUF.decode_kvs c i (GGUF.kv llm) r = Ret (kv_i, None) r_i ->
  bad_tag c r_i e r' ->
  GGUF.decode oracle llm r
  = Ret ({| GGUF.container := c; GGUF.kv := kv_i;
            GGUF.tensors := GGUF.tensors llm;
            GGUF.parameters := GGUF.parameters llm |}, Some e) r'
  /\ exists tag, (e = ErrInvalidType tag /\ ~ 0 <= tag <= 12)
                 \/ (e = ErrInvalidArrayType tag /\ ~ valid_elem c tag).
Proof.
  intros c Hi Hkvs Hbad. split.
  - unfold GGUF.decode. fold c.
    replace (Z.to_nat (GGUF.modelNumKV c))
      with (i + S (Z.to_nat (GGUF.modelNumKV c) - S i))%nat by lia.
    unfold bind at 1. rewrite (decode_kvs_app _ _ _ _ _ _ _ Hkvs).
    simpl GGUF.decode_kvs. unfold bind at 1.
    rewrite (decode_kv_bad _ _ _ _ Hbad). reflexivity.
  - destruct Hbad; eauto.
Qed.

Lemma invalid_tag_is_fatal_witness :
  GGUF.decode float_oracle (GGUF.newModelGGUF (Samples.gguf_v3 0 2))
    (Samples.after_header Samples.tag255)
  = Ret ({| GGUF.container := Samples.gguf_v3 0 2;
            GGUF.kv := <["a"%string := VUint32 5]> ∅;
            GGUF.tensors := []; GGUF.parameters := 0 |},
         Some (ErrInvalidType 255))
        {| data := data (Samples.after_header Samples.tag255); offset := 54 |}
  /\ GGUF.decode float_oracle (GGUF.newModelGGUF (Samples.gguf_v3 0 1))
       (Samples.after_header Samples.array_of_arrays)
     = Ret (GGUF.newModelGGUF (Samples.gguf_v3 0 1), Some (ErrInvalidArrayType 9))
           {| data := data (Samples.after_header Samples.array_of_arrays);
              offset := 49 |}.
Proof.
  split.
  - refine (proj1 (invalid_tag_is_fatal float_oracle
                     (GGUF.newModelGGUF (Samples.gguf_v3 0 2))
                     (Samples.after_header Samples.tag255)
                     {| data := data (Samples.after_header Samples.tag255);
                        offset := 41 |} _ 1 _ _ _ _ _)).
    + vm_compute. lia.
    + vm_compute. reflexivity.
    + eapply (bad_value_tag _ _ "b"%string
                {| data := data (Samples.after_header Samples.tag255); offset := 50 |}).
      * vm_compute. reflexivity.
      * vm_compute. reflexivity.
      * lia.
  - refine (proj1 (invalid_tag_is_fatal float_oracle
                     (GGUF.newModelGGUF (Samples.gguf_v3 0 1))
                     (Samples.after_header Samples.array_of_arrays)
                     (Samples.after_header Samples.array_of_arrays) _ 0 _ _ _ _ _)).
    + vm_compute. lia.
    + reflexivity.
    + eapply (bad_elem_tag _ _ "a"%string
                {| data := data (Samples.after_header Samples.array_of_arrays);
                   offset := 33 |}
                {| data := data (Samples.after_header Samples.array_of_arrays);
                   offset := 37 |} 9
                {| data := data (Samples.after_header Samples.array_of_arrays);
                   offset := 41 |} 1).
      * vm_compute. reflexivity.
      * vm_compute. reflexivity.
      * vm_compute. reflexivity.
      * vm_compute. reflexivity.
      * lia.
      * unfold valid_elem. lia.
Defined.

Lemma invalid_tag_is_fatal_counterexample :
  let c := Samples.gguf_v3 0 1 in
  let r := Samples.after_header Samples.empty_array_of_arrays in
  exists r1 r2 r3 r4 m r',
    GGUF.readString c r = Ret (inr "a"%string) r1
    /\ binary_Read LittleEndian 4 r1 = (inr 9, r2)
    /\ binary_Read LittleEndian 4 r2 = (inr 9, r3)
    /\ binary_Read LittleEndian 8 r3 = (inr 0, r4)
    /\ GGUF.Decode float_oracle Samples.gguf_le
         (Samples.after_magic Samples.empty_array_of_arrays)
       = GGUF.decode float_oracle (GGUF.newModelGGUF c) r
    /\ GGUF.decode float_oracle (GGUF.newModelGGUF c) r = Ret (m, None) r'.
Proof.
  intros c r. eexists _, _, _, _, _, _.
  split; [vm_compute; reflexivity|].
  split; [vm_compute; reflexivity|].
  split; [vm_compute; reflexivity|].
  split; [vm_compute; reflexivity|].
  split; vm_compute; reflexivity.
Qed.

(** ** Sample decodes *)

Lemma tiny_model_decodes :
  exists r',
    GGUF.Decode float_oracle Samples.gguf_le (Samples.after_magic Samples.tiny_model)
    = Ret ({| GGUF.container := Samples.gguf_v3 2 4;
              GGUF.kv := <["general.parameter_count"%string := VUint64 10]>
                           (<["general.name"%string := VString "tiny"]> ∅);
              GGUF.tensors :=
                [ {| Name := "a"; Kind := 0; t_offset := 0; Shape := [2; 3] |};
                  {| Name := "b"; Kind := 0; t_offset := 32; Shape := [4] |} ];
              GGUF.parameters := 10 |}, None) r'.
Proof. eexists. vm_compute. reflexivity. Qed.

Lemma kv_never_array_nor_chat_template_witness :
  exists m,
    (forall k v, GGUF.kv m !! k = Some v ->
                 is_array v = false /\ k <> "tokenizer.chat_template"%string)
    /\ GGUF.kv m !! "general.name"%string = Some (VString "tiny")
    /\ GGUF.kv m !! "tokenizer.ggml.tokens"%string = None.
Proof.
  eexists. split.
  - refine (proj1 (kv_never_array_nor_chat_template float_oracle Samples.gguf_le
                     (Samples.after_magic Samples.tiny_model) _ _ _ _)).
    vm_compute. reflexivity.
  - split; vm_compute; reflexivity.
Defined.

Lemma parameter_count_patched_witness :
  exists m,
    GGUF.kv m !! "general.parameter_count"%string
    = Some (VUint64 (uint64 (total_parameters float_oracle (GGUF.tensors m))))
    /\ total_parameters float_oracle (GGUF.tensors m) = 10.
Proof.
  eexists. split.
  - refine (proj1 (parameter_count_patched float_oracle Samples.gguf_le
                     (Samples.after_magic Samples.tiny_model) _ _ _)).
    vm_compute. reflexivity.
  - vm_compute. reflexivity.
Defined.

(** C6 (the code at a stream that is exhausted): the stream ends with the
    header, which announces one entry.  The reads of the key length, of the
    tag and of the value find no byte; the scalar readers drop what
    [binary.Read] reports, and [Decode] returns no error and a model with
    the entry that the zero values make up. *)
Example exhausted_stream_decodes :
  let r := Samples.after_magic Samples.header_only in
  Z.of_nat (length (data r)) = 24
  /\ exists r',
      GGUF.Decode float_oracle Samples.gguf_le r
      = Ret ({| GGUF.container := Samples.gguf_v3 0 1;
                GGUF.kv := <["general.parameter_count"%string := VUint64 0]>
                             (<[""%string := VUint8 0]> ∅);
                GGUF.tensors := []; GGUF.parameters := 0 |}, None) r'.
Proof. split; [reflexivity|]. eexists. vm_compute. reflexivity. Qed.

(** A scalar reader on a stream that is at its end returns zero. *)
Lemma readU32_at_end (bo : ByteOrder) (r : readSeekOffset) :
  rest r = [] -> GGUF.readU32 bo r = Ret 0 r.
Proof.
  intros Hr. unfold GGUF.readU32, lift, GGUF.read_uint, binary_Read, ReadFull.
  rewrite Hr. simpl. now rewrite advance_0.
Qed.

(** ** The tensor entries of Format B *)

Lemma ebind_inr {A B} (m : E A) (k : A -> E B) (r r' : readSeekOffset) (b : B) :
  (x <-? m;; k x) r = (inr b, r') ->
  exists a r1, m r = (inr a, r1) /\ k a r1 = (inr b, r').
Proof.
  unfold ebind. destruct (m r) as [[err|a] r1]; [discriminate | eauto].
Qed.

Lemma read_u32_wire (r r' : readSeekOffset) (x : Z) :
  GGLA.read_u32 r = (inr x, r') ->
  x = GGLA.wire_u32 (data r) (offset r)
  /\ r' = at_offset r (offset r + 4)
  /\ 0 <= x < 2 ^ 32
  /\ Z.of_nat (Z.to_nat (offset r)) + 4 <= Z.of_nat (length (data r)).
Proof.
  intros H. apply binary_Read_inr in H as (-> & -> & Hlen & Hb).
  unfold rest in Hlen. rewrite length_drop in Hlen.
  repeat split; try assumption; try lia.
Qed.

Lemma seek_inr (off : Z) (w : whence) (r r' : readSeekOffset) :
  seek off w r = (inr tt, r') ->
  let target := match w with
                | SeekStart => off
                | SeekCurrent => offset r + off
                | SeekEnd => Z.of_nat (length (data r)) + off
                end in
  r' = at_offset r target /\ 0 <= target < 2 ^ 63.
Proof.
  intros H. cbv zeta. unfold seek, Seek in H.
  match goal with |- context [at_offset r ?x] => set (target := x) in * end.
  destruct (Z.leb_spec 0 target); destruct (Z.ltb_spec target (2 ^ 63));
    simpl in H; try discriminate.
  injection H as <-. split; [reflexivity | lia].
Qed.

Lemma uint64_small (x : Z) : 0 <= x < 2 ^ 32 -> uint64 x = x.
Proof. intros H. unfold uint64, wrap. apply Z.mod_small. lia. Qed.

Lemma readShape_wire (n : nat) :
  forall (shape sh : list Z) (r r' : readSeekOffset),
    GGLA.readShape n shape r = (inr sh, r') ->
    sh = shape ++ map (fun i => GGLA.wire_u32 (data r) (offset r + 4 * Z.of_nat i))
                      (seq 0 n)
    /\ r' = at_offset r (offset r + 4 * Z.of_nat n)
    /\ (0 <= offset r ->
        offset r + 4 * Z.of_nat n <= Z.of_nat (length (data r)) \/ n = 0%nat).
Proof.
  induction n as [|n IH]; intros shape sh r r' H; simpl in H.
  - injection H as <- <-. simpl. rewrite app_nil_r.
    repeat split; [| auto].
    destruct r; unfold at_offset; simpl; f_equal; lia.
  - apply ebind_inr in H as (x & r1 & Hx & H).
    apply read_u32_wire in Hx as (-> & -> & Hb & Hlen).
    apply IH in H as (-> & -> & Hend). simpl data in *. simpl offset in *.
    rewrite uint64_small by assumption.
    repeat split.
    + rewrite <- app_assoc. simpl. rewrite Z.add_0_r. do 2 f_equal.
      rewrite <- seq_shift, map_map. apply map_ext. intros i. f_equal. lia.
    + unfold at_offset; simpl; f_equal; lia.
    + intros Ho. left. destruct Hend as [Hend| ->]; lia.
Qed.

Lemma wire_dims_bound (d : list byte) (o : Z) :
  Forall (fun x => 0 <= x < 2 ^ 32) (GGLA.wire_dims d o).
Proof.
  unfold GGLA.wire_dims. apply Forall_forall. intros x Hx.
  apply list_elem_of_In, in_map_iff in Hx as (i & <- & _).
  unfold GGLA.wire_u32.
  pose proof (le_uint_bound (take 4 (drop (Z.to_nat (o + 12 + 4 * Z.of_nat i)) d))) as Hb.
  assert (Hl : (length (take 4 (drop (Z.to_nat (o + 12 + 4 * Z.of_nat i)) d)) <= 4)%nat)
    by (rewrite length_take; lia).
  assert (256 ^ Z.of_nat (length (take 4 (drop (Z.to_nat (o + 12 + 4 * Z.of_nat i)) d)))
          <= 256 ^ 4) by (apply Z.pow_le_mono_r; lia).
  lia.
Qed.

(** What a round of the tensor loop that succeeds has read and done. *)
Lemma decode_tensor_inv (oracle : SizeOracle) (r r' : readSeekOffset) (t : tensor) :
  GGLA.decode_tensor oracle r = (inr t, r') ->
  let d := data r in
  let o := offset r in
  let p := o + 12 + 4 * Z.of_nat (Z.to_nat (GGLA.wire_u32 d o))
           + Z.of_nat (Z.to_nat (GGLA.wire_u32 d (o + 4))) in
  let q := Z.land (int64 (p + 31)) (-32) in
  Shape t = rev (GGLA.wire_dims d o)
  /\ Kind t = GGLA.wire_u32 d (o + 8)
  /\ t_offset t = uint64 q
  /\ r' = at_offset r (q + int64 (tensor_size oracle t))
  /\ 0 <= q < 2 ^ 63
  /\ 0 <= q + int64 (tensor_size oracle t) < 2 ^ 63
  /\ Z.of_nat (Z.to_nat o) + 4 <= Z.of_nat (length d)
  /\ (0 <= o -> p <= Z.of_nat (length d)).
Proof.
  intros H d o p q. unfold GGLA.decode_tensor in H.
  apply ebind_inr in H as (dims & ra & Hdims & H).
  apply ebind_inr in H as (namesize & rb & Hns & H).
  apply ebind_inr in H as (kind & rc & Hkind & H).
  apply ebind_inr in H as (shape & rd & Hshape & H).
  apply ebind_inr in H as (name & re & Hname & H).
  apply ebind_inr in H as ([] & rf & Hseek & H).
  apply ebind_inr in H as ([] & rg & Hskip & H).
  apply read_u32_wire in Hdims as (Hd & -> & _ & Hlen).
  apply read_u32_wire in Hns as (Hn & -> & _ & _).
  apply read_u32_wire in Hkind as (Hk & -> & _ & Hklen).
  apply readShape_wire in Hshape as (Hsh & -> & Hshlen).
  apply ReadFull_inr in Hname as (_ & -> & Hnlen).
  unfold rest in Hnlen. rewrite length_drop in Hnlen. simpl in Hnlen.
  apply seek_inr in Hseek as (-> & Hq).
  apply seek_inr in Hskip as (-> & Hq').
  simpl data in *. simpl offset in *.
  injection H as <- <-. simpl.
  fold d o in Hd, Hn, Hk, Hsh, Hq, Hq' |- *.
  replace (o + 4 + 4 + 4 + 4 * Z.of_nat (Z.to_nat dims) + Z.of_nat (Z.to_nat namesize))
    with p in * by (unfold p; rewrite <- Hd, <- Hn; lia).
  fold q in Hq, Hq' |- *.
  repeat split; try lia; try assumption.
  - rewrite Hsh. simpl. unfold GGLA.wire_dims. rewrite <- Hd. f_equal.
    apply map_ext. intros i. f_equal. lia.
  - rewrite Hk. f_equal. lia.
  - intros Ho. unfold p. rewrite <- Hd, <- Hn. fold d o in Hnlen, Hklen, Hshlen.
    destruct Hshlen as [Hshlen|Hshlen]; lia.
Qed.

Lemma decode_tensor_data (oracle : SizeOracle) (r r' : readSeekOffset) (t : tensor) :
  GGLA.decode_tensor oracle r = (inr t, r') -> data r' = data r.
Proof.
  intros H. apply decode_tensor_inv in H as (_ & _ & _ & -> & _). reflexivity.
Qed.

(** The tensors that the loop adds come each from a round at some place of
    the same source. *)
Lemma decode_tensors_from (oracle : SizeOracle) (fuel : nat) :
  forall (ts ts' : list tensor) (r r' : readSeekOffset) (e : error),
    GGLA.decode_tensors oracle fuel ts r = Some (ts', e, r') ->
    exists new,
      ts' = ts ++ new
      /\ Forall (fun t => exists ri ri',
                     GGLA.decode_tensor oracle ri = (inr t, ri')
                     /\ data ri = data r) new.
Proof.
  induction fuel as [|fuel IH]; intros ts ts' r r' e H; simpl in H; [discriminate|].
  destruct (GGLA.decode_tensor oracle r) as [[err|t] r1] eqn:Ht.
  - injection H as <- _ _. exists []. now rewrite app_nil_r.
  - apply IH in H as (new & -> & Hnew).
    exists (t :: new). rewrite <- app_assoc. split; [reflexivity|].
    constructor; [eauto|].
    eapply Forall_impl; [exact Hnew|]. intros t' (ri & ri' & Hdec & Hdata).
    exists ri, ri'. split; [exact Hdec|].
    rewrite Hdata. eapply decode_tensor_data; eauto.
Qed.

Lemma read_u32_data (r r' : readSeekOffset) (x : error + Z) :
  GGLA.read_u32 r = (x, r') -> data r' = data r.
Proof.
  unfold GGLA.read_u32, binary_Read, ReadFull.
  destruct (4 <=? length (rest r))%nat; intros [= _ <-]; reflexivity.
Qed.

Lemma decode_from (oracle : SizeOracle) (fuel : nat) (m m' : GGLA.modelGGLA)
    (r r' : readSeekOffset) (e : error) :
  GGLA.decode oracle fuel m r = Some (m', e, r') ->
  GGLA.container m' = GGLA.container m
  /\ exists new,
      GGLA.tensors m' = GGLA.tensors m ++ new
      /\ Forall (fun t => exists ri ri',
                     GGLA.decode_tensor oracle ri = (inr t, ri')
                     /\ data ri = data r) new.
Proof.
  unfold GGLA.decode. intros H.
  destruct (GGLA.read_u32 r) as [[err|rank] r1] eqn:H1.
  { injection H as <- _ _. split; [reflexivity|]. exists []. now rewrite app_nil_r. }
  destruct (GGLA.read_u32 r1) as [[err|alpha] r2] eqn:H2.
  { injection H as <- _ _. split; [reflexivity|]. exists []. now rewrite app_nil_r. }
  destruct (GGLA.decode_tensors oracle fuel (GGLA.tensors m) r2)
    as [[[ts err] r3]|] eqn:H3; [|discriminate].
  injection H as <- _ _. split; [reflexivity|].
  apply decode_tensors_from in H3 as (new & -> & Hnew).
  exists new. split; [reflexivity|].
  apply read_u32_data in H1, H2. now rewrite H2, H1 in Hnew.
Qed.

(** C3: a tensor entry of Format B gives the tensor the reverse of the
    dimensions as they are on the wire, each a 32-bit unsigned value
    widened to 64 bits: element [i] of the shape is wire dimension
    [dims-1-i].  Every tensor of a model that [Decode] returns comes from
    such an entry of the input. *)
Theorem ggla_shape_reversed (oracle : SizeOracle) :
  (forall r r' t,
      GGLA.decode_tensor oracle r = (inr t, r') ->
      let wire := GGLA.wire_dims (data r) (offset r) in
      Shape t = rev wire
      /\ Forall (fun d => 0 <= d < 2 ^ 32) wire
      /\ length (Shape t) = length wire
      /\ forall i, (i < length wire)%nat ->
                   nth i (Shape t) 0 = nth (length wire - 1 - i) wire 0)
  /\ (forall fuel c r m e r',
         GGLA.Decode oracle fuel c r = Some (Some m, e, r') ->
         GGLA.version (GGLA.container m) = 1
         /\ Forall (fun t => exists ri ri',
                        GGLA.decode_tensor oracle ri = (inr t, ri')
                        /\ data ri = data r
                        /\ Shape t = rev (GGLA.wire_dims (data r) (offset ri)))
                   (GGLA.tensors m)).
Proof.
  split.
  - intros r r' t H wire.
    apply decode_tensor_inv in H as (Hsh & _). fold wire in Hsh.
    repeat split.
    + exact Hsh.
    + apply wire_dims_bound.
    + rewrite Hsh. apply length_rev.
    + intros i Hi. rewrite Hsh, rev_nth by assumption. f_equal. lia.
  - intros fuel c r m e r' H. unfold GGLA.Decode in H.
    destruct (GGLA.read_version c r) as [v r1] eqn:Hv.
    destruct (Z.eqb_spec v 1) as [->|]; [|discriminate].
    destruct (GGLA.decode oracle fuel _ r1) as [[[m1 err] r2]|] eqn:Hdec;
      [|discriminate].
    injection H as <- _ _.
    apply decode_from in Hdec as (Hc & new & Hts & Hnew).
    rewrite Hc. split; [reflexivity|].
    rewrite Hts. simpl.
    assert (Hdata : data r1 = data r).
    { unfold GGLA.read_version in Hv.
      destruct (GGLA.read_u32 r) as [[err'|x] rx] eqn:Hx; injection Hv as _ <-;
        eapply read_u32_data; eauto. }
    eapply Forall_impl; [exact Hnew|].
    intros t (ri & ri' & Ht & Hri). exists ri, ri'.
    rewrite <- Hdata, <- Hri. repeat split; try assumption.
    now apply decode_tensor_inv in Ht as (Hsh & _).
Qed.

Lemma ggla_shape_reversed_witness :
  let r := at_offset (Samples.after_ggla_magic Samples.adapter) 16 in
  GGLA.wire_dims (data r) 16 = [2; 3]
  /\ exists t r',
      GGLA.decode_tensor float_oracle r = (inr t, r')
      /\ Shape t = rev (GGLA.wire_dims (data r) (offset r))
      /\ Shape t = [3; 2].
Proof.
  intros r. split; [vm_compute; reflexivity|].
  eexists _, _. split; [vm_compute; reflexivity|].
  split.
  - refine (proj1 (proj1 (ggla_shape_reversed float_oracle) r _ _ _)).
    vm_compute. reflexivity.
  - reflexivity.
Defined.

(** ** The tensor loop of Format B *)

Lemma rounds_decode_tensors (oracle : SizeOracle) (r r' : readSeekOffset)
    (new : list tensor) (e : error) :
  GGLA.rounds oracle r new e r' ->
  forall (fuel : nat) (ts : list tensor),
    (length new < fuel)%nat ->
    GGLA.decode_tensors oracle fuel ts r = Some (ts ++ new, e, r').
Proof.
  induction 1 as [r e r' Hstop | r t r1 new e r' Hstep _ IH]; intros fuel ts Hfuel.
  - destruct fuel as [|fuel]; [simpl in Hfuel; lia|].
    simpl. rewrite Hstop. now rewrite app_nil_r.
  - destruct fuel as [|fuel]; [simpl in Hfuel; lia|].
    simpl. rewrite Hstep. rewrite IH by (simpl in Hfuel; lia).
    now rewrite <- app_assoc.
Qed.

Lemma land_32_ge (p : Z) : 0 <= p -> p + 31 < 2 ^ 63 ->
  p <= Z.land (int64 (p + 31)) (-32).
Proof.
  intros Hp Hlt. rewrite int64_small by lia.
  pose proof (land_lnot_round_up 5 p ltac:(lia)) as H.
  change (Z.lnot (2 ^ 5 - 1)) with (-32) in H. change (2 ^ 5) with 32 in H.
  replace (p + 32 - 1) with (p + 31) in H by lia. rewrite H.
  pose proof (round_up_smallest 32 p ltac:(lia)) as (_ & Hle & _). exact Hle.
Qed.

(** A round that succeeds and skips forward leaves the stream at least
    twelve bytes further. *)
Lemma decode_tensor_advances (oracle : SizeOracle) (r r' : readSeekOffset) (t : tensor) :
  GGLA.decode_tensor oracle r = (inr t, r') ->
  0 <= offset r ->
  Z.of_nat (length (data r)) + 31 < 2 ^ 63 ->
  0 <= int64 (tensor_size oracle t) ->
  offset r + 12 <= offset r'
  /\ offset r + 4 <= Z.of_nat (length (data r))
  /\ data r' = data r.
Proof.
  intros H Ho Hlen Hsize.
  apply decode_tensor_inv in H as (_ & _ & _ & -> & _ & _ & H4 & Hp).
  specialize (Hp Ho). simpl.
  match type of Hp with ?p <= _ =>
    pose proof (land_32_ge p ltac:(lia) ltac:(lia)) as Hq end.
  repeat split; lia.
Qed.

Lemma forward_rounds (oracle : SizeOracle) (n : nat) :
  forall r : readSeekOffset,
    0 <= offset r ->
    Z.of_nat (length (data r)) + 31 < 2 ^ 63 ->
    (Z.to_nat (Z.of_nat (length (data r)) - offset r) < n)%nat ->
    GGLA.forward oracle n r = true ->
    exists new e r', GGLA.rounds oracle r new e r' /\ (length new < n)%nat.
Proof.
  induction n as [|n IH]; intros r Ho Hlen Hmu Hfw; [lia|].
  simpl in Hfw.
  destruct (GGLA.decode_tensor oracle r) as [[err|t] r1] eqn:Ht.
  - exists [], err, r1. split; [now constructor | simpl; lia].
  - apply andb_true_iff in Hfw as [Hsize Hfw]. apply Z.leb_le in Hsize.
    destruct (decode_tensor_advances oracle r r1 t Ht Ho Hlen Hsize)
      as (Hadv & H4 & Hdata).
    destruct (IH r1) as (new & e & r' & Hr & Hn); try rewrite Hdata; try lia;
      try assumption.
    exists (t :: new), e, r'. split; [econstructor; eauto | simpl; lia].
Qed.

(** C9 (amended): the tensor loop of Format B has no count and goes on until
    an operation on the stream fails.  For every version-1 input whose
    decoded tensors are each skipped by a distance that is not negative (and
    whose length fits a signed 64-bit offset), [Decode] terminates: it
    returns the model with the tensors of all the rounds before the failure
    together with the error of that failure, be it at the start of an entry
    or within one. *)
Theorem ggla_decode_until_failure (oracle : SizeOracle) (c : GGLA.containerGGLA)
    (r r1 : readSeekOffset) :
  0 <= offset r ->
  Z.of_nat (length (data r)) + 31 < 2 ^ 63 ->
  binary_Read LittleEndian 4 r = (inr 1, r1) ->
  GGLA.forward oracle (length (data r)) (at_offset r (offset r + 12)) = true ->
  exists fuel kv ts e r',
    GGLA.decodes oracle r1 kv ts e r'
    /\ forall fuel', (fuel <= fuel')%nat ->
         GGLA.Decode oracle fuel' c r
         = Some (Some {| GGLA.container := {| GGLA.version := 1 |};
                         GGLA.kv := kv; GGLA.tensors := ts |}, Some e, r').
Proof.
  intros Ho Hlen Hv Hfw.
  assert (HD : forall fuel, GGLA.Decode oracle fuel c r
               = match GGLA.decode oracle fuel
                         (GGLA.newModelGGLA {| GGLA.version := 1 |}) r1 with
                 | None => None
                 | Some (m, err, r2) => Some (Some m, Some err, r2)
                 end).
  { intros fuel. unfold GGLA.Decode, GGLA.read_version, GGLA.read_u32.
    now rewrite Hv. }
  apply read_u32_wire in Hv as (_ & -> & _ & _).
  destruct (GGLA.read_u32 (at_offset r (offset r + 4))) as [[err|rank] r2] eqn:H2.
  { exists 0%nat, ∅, [], err, r2. split; [now constructor|].
    intros fuel' _. rewrite HD. unfold GGLA.decode. now rewrite H2. }
  destruct (GGLA.read_u32 r2) as [[err|alpha] r3] eqn:H3.
  { exists 0%nat, (<["r"%string := VUint32 rank]> ∅), [], err, r3.
    split; [econstructor; eauto|].
    intros fuel' _. rewrite HD. unfold GGLA.decode. now rewrite H2, H3. }
  pose proof H2 as H2'. pose proof H3 as H3'.
  apply read_u32_wire in H2' as (_ & Hr2 & _ & Hl2).
  apply read_u32_wire in H3' as (_ & Hr3 & _ & Hl3).
  assert (Hr3' : r3 = at_offset r (offset r + 12)).
  { rewrite Hr3, Hr2. unfold at_offset; simpl; f_equal; lia. }
  rewrite Hr2 in Hl3. simpl in Hl2, Hl3. rewrite <- Hr3' in Hfw.
  destruct (forward_rounds oracle (length (data r)) r3)
    as (new & e & r' & Hr & Hn); rewrite ?Hr3'; simpl; try lia; try assumption.
  { now rewrite <- Hr3'. }
  exists (length (data r)),
    (<["alpha"%string := VUint32 alpha]> (<["r"%string := VUint32 rank]> ∅)),
    new, e, r'.
  split; [econstructor; eauto|].
  intros fuel' Hfuel. rewrite HD. unfold GGLA.decode. rewrite H2, H3.
  rewrite (rounds_decode_tensors oracle _ _ _ _ Hr) by lia. reflexivity.
Qed.

Lemma ggla_decode_until_failure_witness :
  exists fuel m e r',
    GGLA.Decode float_oracle fuel Samples.ggla0
      (Samples.after_ggla_magic Samples.adapter) = Some (Some m, Some e, r').
Proof.
  destruct (ggla_decode_until_failure float_oracle Samples.ggla0
              (Samples.after_ggla_magic Samples.adapter)
              (at_offset (Samples.after_ggla_magic Samples.adapter) 8))
    as (fuel & kv & ts & e & r' & _ & HD).
  - simpl. lia.
  - vm_compute. reflexivity.
  - vm_compute. reflexivity.
  - vm_compute. reflexivity.
  - eexists fuel, _, e, r'. apply HD. lia.
Defined.

Example adapter_decodes :
  GGLA.Decode float_oracle 3 Samples.ggla0 (Samples.after_ggla_magic Samples.adapter)
  = Some (Some {| GGLA.container := {| GGLA.version := 1 |};
                  GGLA.kv := <["alpha"%string := VUint32 16]>
                               (<["r"%string := VUint32 8]> ∅);
                  GGLA.tensors :=
                    [ {| Name := "a.loraA"; Kind := 0; t_offset := 64; Shape := [3; 2] |};
                      {| Name := "b"; Kind := 0; t_offset := 128; Shape := [4] |} ] |},
          Some EOF,
          {| data := data (Samples.after_ggla_magic Samples.adapter); offset := 144 |}).
Proof. vm_compute. reflexivity. Qed.

(** The entry of [Samples.looping] is skipped by 48 bytes backwards, to
    where it starts. *)
Lemma looping_round :
  let r := at_offset (Samples.after_ggla_magic Samples.looping) 16 in
  GGLA.decode_tensor float_oracle r
  = (inr {| Name := ""; Kind := 0; t_offset := 64;
            Shape := [3221225475; 4294967292] |}, r).
Proof. vm_compute. reflexivity. Qed.

Lemma looping_forever (fuel : nat) :
  forall ts : list tensor,
    GGLA.decode_tensors float_oracle fuel ts
      (at_offset (Samples.after_ggla_magic Samples.looping) 16) = None.
Proof.
  induction fuel as [|fuel IH]; intros ts; [reflexivity|].
  cbn [GGLA.decode_tensors]. rewrite looping_round. apply IH.
Qed.

Lemma ggla_decode_until_failure_counterexample :
  binary_Read LittleEndian 4 (Samples.after_ggla_magic Samples.looping)
  = (inr 1, at_offset (Samples.after_ggla_magic Samples.looping) 8)
  /\ int64 (tensor_size float_oracle
              {| Name := ""; Kind := 0; t_offset := 64;
                 Shape := [3221225475; 4294967292] |}) = -48
  /\ ~ exists fuel res,
        GGLA.Decode float_oracle fuel Samples.ggla0
          (Samples.after_ggla_magic Samples.looping) = Some res.
Proof.
  split; [vm_compute; reflexivity|]. split; [vm_compute; reflexivity|].
  intros (fuel & res & H).
  set (r8 := at_offset (Samples.after_ggla_magic Samples.looping) 8).
  set (m0 := GGLA.newModelGGLA {| GGLA.version := 1 |}).
  assert (Hdec : GGLA.decode float_oracle fuel m0 r8 = None).
  { assert (E : GGLA.decode float_oracle fuel m0 r8
                = match GGLA.decode_tensors float_oracle fuel []
                          (at_offset (Samples.after_ggla_magic Samples.looping) 16) with
                  | None => None
                  | Some (ts, err, r3) =>
                      Some ({| GGLA.container := {| GGLA.version := 1 |};
                               GGLA.kv := <["alpha"%string := VUint32 16]>
                                            (<["r"%string := VUint32 8]> ∅);
                               GGLA.tensors := ts |}, err, r3)
                  end) by reflexivity.
    rewrite E, looping_forever. reflexivity. }
  assert (HD : GGLA.Decode float_oracle fuel Samples.ggla0
                 (Samples.after_ggla_magic Samples.looping)
               = match GGLA.decode float_oracle fuel m0 r8 with
                 | None => None
                 | Some (m, err, r2) => Some (Some m, Some err, r2)
                 end) by reflexivity.
  rewrite HD, Hdec in H. discriminate.
Qed.

(** * Further properties *)

(** ** The header and the counts of Format A *)

Lemma decode_container (oracle : SizeOracle) (llm m : GGUF.modelGGUF)
    (r r' : readSeekOffset) (e : option error) :
  GGUF.decode oracle llm r = Ret (m, e) r' ->
  GGUF.container m = GGUF.container llm.
Proof.
  intros H. apply decode_inv in H as (kv1 & e1 & r1 & _ & Hrest).
  destruct Hrest as [(err & _ & _ & _ & ->)
                    |(_ & ts & params & e2 & r2 & _ &
                      [(err & _ & _ & _ & ->)|(_ & _ & _ & ->)])];
    reflexivity.
Qed.

Lemma uint_of_le (bo : ByteOrder) (bs : list byte) (n : nat) :
  (length bs <= n)%nat -> 0 <= uint_of bo bs < 256 ^ Z.of_nat n.
Proof.
  intros Hn. pose proof (uint_of_bound bo bs) as Hb.
  assert (256 ^ Z.of_nat (length bs) <= 256 ^ Z.of_nat n)
    by (apply Z.pow_le_mono_r; lia).
  lia.
Qed.

(** What [Decode] passes to [decode] when the version and the counts are
    there to read. *)
Lemma Decode_header (oracle : SizeOracle) (c : GGUF.containerGGUF)
    (r r1 r2 : readSeekOffset) (v : Z) (bs : list byte) :
  binary_Read (GGUF.bo c) 4 r = (inr v, r1) ->
  ReadFull (if v =? 1 then 8 else 16) r1 = (inr bs, r2) ->
  let w := if v =? 1 then 4%nat else 8%nat in
  let n := {| GGUF.NumTensor := uint_of (GGUF.bo c) (take w bs);
              GGUF.NumKV := uint_of (GGUF.bo c) (drop w bs) |} in
  GGUF.Decode oracle c r
  = GGUF.decode oracle
      (GGUF.newModelGGUF
         (if v =? 1
          then {| GGUF.bo := GGUF.bo c; GGUF.Version := v;
                  GGUF.V1 := n; GGUF.V2 := GGUF.V2 c |}
          else {| GGUF.bo := GGUF.bo c; GGUF.Version := v;
                  GGUF.V1 := GGUF.V1 c; GGUF.V2 := n |})) r2.
Proof.
  intros Hv Hn w n. unfold GGUF.Decode, bind at 1. rewrite lift_Ret.
  unfold GGUF.read_version. rewrite Hv. simpl fst. simpl snd.
  subst w n. destruct (v =? 1); unfold bind at 1, bind at 1; rewrite lift_Ret;
    unfold GGUF.read_counts; simpl Nat.mul; rewrite Hn; reflexivity.
Qed.

(** X1: the counts of the model are those of the header: when the version
    and the two counts are there to read, the model that [Decode] returns
    has the version of the stream, and [NumTensor()] and [NumKV()] are the
    two counts, 32-bit ones in version 1 and 64-bit ones otherwise. *)
Theorem Decode_counts_of_header (oracle : SizeOracle) (c : GGUF.containerGGUF)
    (r r1 r2 r' : readSeekOffset) (v : Z) (bs : list byte)
    (m : GGUF.modelGGUF) (e : option error) :
  binary_Read (GGUF.bo c) 4 r = (inr v, r1) ->
  ReadFull (if v =? 1 then 8 else 16) r1 = (inr bs, r2) ->
  GGUF.Decode oracle c r = Ret (m, e) r' ->
  let w := if v =? 1 then 4%nat else 8%nat in
  GGUF.Version (GGUF.container m) = v
  /\ GGUF.modelNumTensor (GGUF.container m) = uint_of (GGUF.bo c) (take w bs)
  /\ GGUF.modelNumKV (GGUF.container m) = uint_of (GGUF.bo c) (drop w bs)
  /\ 0 <= GGUF.modelNumTensor (GGUF.container m) < 256 ^ Z.of_nat w
  /\ 0 <= GGUF.modelNumKV (GGUF.container m) < 256 ^ Z.of_nat w.
Proof.
  intros Hv Hn HD w.
  rewrite (Decode_header oracle c r r1 r2 v bs Hv Hn) in HD.
  apply decode_container in HD. rewrite HD.
  apply ReadFull_inr in Hn as (Hbs & _ & Hlen).
  assert (Hl : length bs = if v =? 1 then 8%nat else 16%nat)
    by (rewrite Hbs, length_take; lia).
  subst w. unfold GGUF.modelNumTensor, GGUF.modelNumKV.
  destruct (Z.eqb_spec v 1) as [->|Hne]; simpl.
  - pose proof (uint_of_le (GGUF.bo c) (take 4 bs) 4
                  ltac:(rewrite length_take; lia)) as H1.
    pose proof (uint_of_le (GGUF.bo c) (drop 4 bs) 4
                  ltac:(rewrite length_drop; lia)) as H2.
    change (256 ^ Z.of_nat 4) with (2 ^ 32) in *.
    unfold uint64, wrap. rewrite !Z.mod_small by lia. repeat split; lia.
  - apply Z.eqb_neq in Hne. rewrite Hne.
    pose proof (uint_of_le (GGUF.bo c) (take 8 bs) 8
                  ltac:(rewrite length_take; lia)) as H1.
    pose proof (uint_of_le (GGUF.bo c) (drop 8 bs) 8
                  ltac:(rewrite length_drop; lia)) as H2.
    repeat split; lia.
Qed.

Lemma Decode_counts_of_header_witness :
  exists m e r',
    GGUF.Decode float_oracle Samples.gguf_le (Samples.after_magic Samples.tiny_model)
    = Ret (m, e) r'
    /\ GGUF.Version (GGUF.container m) = 3
    /\ GGUF.modelNumTensor (GGUF.container m) = 2
    /\ GGUF.modelNumKV (GGUF.container m) = 4.
Proof.
  eexists _, _, _. split; [vm_compute; reflexivity|].
  pose proof (fun r' bs m e =>
                Decode_counts_of_header float_oracle Samples.gguf_le
                  (Samples.after_magic Samples.tiny_model)
                  (at_offset (Samples.after_magic Samples.tiny_model) 8)
                  (at_offset (Samples.after_magic Samples.tiny_model) 24)
                  r' 3 bs m e) as H.
  edestruct H as (H1 & H2 & H3 & _).
  - vm_compute. reflexivity.
  - vm_compute. reflexivity.
  - vm_compute. reflexivity.
  - split; [exact H1|]. split; [rewrite H2 | rewrite H3]; vm_compute; reflexivity.
Defined.

Lemma decode_tensors_length (oracle : SizeOracle) (c : GGUF.containerGGUF) (n : nat) :
  forall (ts ts' : list tensor) (p p' : Z) (e : option error) (r r' : readSeekOffset),
    GGUF.decode_tensors oracle c n ts p r = Ret (ts', p', e) r' ->
    (length ts' <= length ts + n)%nat
    /\ (e = None -> length ts' = (length ts + n)%nat).
Proof.
  induction n as [|n IH]; intros ts ts' p p' e r r' H; simpl in H.
  - injection H as <- _ <- _. split; lia.
  - inv_bind H. destruct a as [err|t].
    + injection H as <- _ <- _. split; [lia | discriminate].
    + apply IH in H as (Hle & Heq). rewrite length_app in *. simpl in *.
      split; [lia | intros He; rewrite (Heq He); lia].
Qed.

Lemma store_size (kv : KV) (k : string) (vtype : Z) (v : value) :
  (size (GGUF.store kv k vtype v) <= S (size kv))%nat.
Proof.
  rewrite store_spec. destruct (decide _); [lia|].
  rewrite map_size_insert. destruct (kv !! k); unfold id; lia.
Qed.

Lemma decode_kvs_size (c : GGUF.containerGGUF) (n : nat) :
  forall (kv kv1 : KV) (r r1 : readSeekOffset) (e : option error),
    GGUF.decode_kvs c n kv r = Ret (kv1, e) r1 ->
    (size kv1 <= size kv + n)%nat.
Proof.
  induction n as [|n IH]; intros kv kv1 r r1 e H; simpl in H.
  - injection H as <- _ _. lia.
  - inv_bind H. destruct a as [err|kv'].
    + injection H as <- _ _. lia.
    + apply IH in H.
      apply decode_kv_inv in Ha as (k & ra & vtype & rb & v & _ & _ & _ & ->).
      pose proof (store_size kv k vtype v). lia.
Qed.

(** X2: a model that [Decode] returns has no more tensors than [NumTensor()]
    says, and exactly that many when there is no error; its store has no
    more entries than [NumKV()] says and one more for the parameter
    count. *)
Theorem Decode_respects_counts (oracle : SizeOracle) (c : GGUF.containerGGUF)
    (r r' : readSeekOffset) (m : GGUF.modelGGUF) (e : option error) :
  GGUF.Decode oracle c r = Ret (m, e) r' ->
  (length (GGUF.tensors m) <= Z.to_nat (GGUF.modelNumTensor (GGUF.container m)))%nat
  /\ (e = None ->
      length (GGUF.tensors m) = Z.to_nat (GGUF.modelNumTensor (GGUF.container m)))
  /\ (size (GGUF.kv m) <= Z.to_nat (GGUF.modelNumKV (GGUF.container m)) + 1)%nat.
Proof.
  intros HD. destruct (Decode_inv oracle c r) as (c' & r0 & Heq & _).
  rewrite Heq in HD. pose proof (decode_container _ _ _ _ _ _ HD) as Hc.
  rewrite Hc. simpl.
  apply decode_inv in HD as (kv1 & e1 & r1 & Hkvs & Hrest). simpl in *.
  apply decode_kvs_size in Hkvs. rewrite map_size_empty in Hkvs.
  destruct Hrest as [(err & -> & -> & _ & ->)
                    |(_ & ts & params & e2 & r2 & Hts & Hrest)]; simpl.
  - repeat split; [lia | discriminate | lia].
  - apply decode_tensors_length in Hts as (Hle & Hlen). simpl in *.
    destruct Hrest as [(err & -> & -> & _ & ->)|(-> & -> & _ & ->)]; simpl.
    + repeat split; [lia | discriminate | lia].
    + repeat split; [lia | intros _; now apply Hlen |].
      rewrite map_size_insert.
      destruct (kv1 !! GGUF.parameter_count); unfold id; lia.
Qed.

Lemma Decode_respects_counts_witness :
  exists m r',
    GGUF.Decode float_oracle Samples.gguf_le (Samples.after_magic Samples.tiny_model)
    = Ret (m, None) r'
    /\ length (GGUF.tensors m) = 2%nat
    /\ (size (GGUF.kv m) <= 5)%nat.
Proof.
  eexists _, _. split; [vm_compute; reflexivity|].
  edestruct (Decode_respects_counts float_oracle Samples.gguf_le
               (Samples.after_magic Samples.tiny_model)) as (_ & H2 & H3).
  - vm_compute. reflexivity.
  - split; [exact (H2 eq_refl) | exact H3].
Defined.

(** X3: an alignment of zero makes [decode] panic: when the key-value and
    tensor loops end without error and the store holds the unsigned 32-bit
    value 0 under "general.alignment", the remainder by the alignment is a
    division by zero. *)
Theorem zero_alignment_panics (oracle : SizeOracle) (llm : GGUF.modelGGUF)
    (r r1 r2 : readSeekOffset) (kv1 : KV) (ts : list tensor) (params : Z) :
  let c := GGUF.container llm in
  GGUF.decode_kvs c (Z.to_nat (GGUF.modelNumKV c)) (GGUF.kv llm) r
  = Ret (kv1, None) r1 ->
  GGUF.decode_tensors oracle c (Z.to_nat (GGUF.modelNumTensor c))
    (GGUF.tensors llm) (GGUF.parameters llm) r1 = Ret (ts, params, None) r2 ->
  kv1 !! "general.alignment"%string = Some (VUint32 0) ->
  GGUF.decode oracle llm r = Panic PanicDivide.
Proof.
  intros c Hkvs Hts Hal. unfold GGUF.decode. fold c.
  unfold bind at 1. rewrite Hkvs. unfold bind at 1. rewrite Hts.
  unfold bind, GGUF.skip_data, GGUF.alignment_of, GGUF.alignment_key.
  rewrite lookup_insert_ne by discriminate. rewrite Hal. reflexivity.
Qed.

Lemma zero_alignment_panics_witness :
  GGUF.decode float_oracle (GGUF.newModelGGUF (Samples.gguf_v3 0 1))
    (Samples.after_header MoreSamples.aligned0) = Panic PanicDivide.
Proof.
  eapply (zero_alignment_panics float_oracle
            (GGUF.newModelGGUF (Samples.gguf_v3 0 1))).
  - vm_compute. reflexivity.
  - vm_compute. reflexivity.
  - vm_compute. reflexivity.
Defined.

(** ** The scalar readers *)

Lemma read_uint_short (bo : ByteOrder) (n : nat) (r : readSeekOffset) :
  (length (rest r) < n)%nat ->
  GGUF.read_uint bo n r = (0, advance r (length (rest r))).
Proof.
  intros Hn. unfold GGUF.read_uint, binary_Read, ReadFull.
  destruct (Nat.leb_spec n (length (rest r))); [lia | reflexivity].
Qed.

(** X4: a scalar reader that finds fewer bytes than its width reports
    nothing: it returns zero ([false] for a boolean) and leaves the stream at
    the end of the source. *)
Theorem scalar_readers_short (bo : ByteOrder) (r : readSeekOffset) :
  let at_end := advance r (length (rest r)) in
  ((length (rest r) < 1)%nat ->
   GGUF.readU8 bo r = Ret 0 at_end /\ GGUF.readI8 bo r = Ret 0 at_end
   /\ GGUF.readBool bo r = Ret false at_end)
  /\ ((length (rest r) < 2)%nat ->
      GGUF.readU16 bo r = Ret 0 at_end /\ GGUF.readI16 bo r = Ret 0 at_end)
  /\ ((length (rest r) < 4)%nat ->
      GGUF.readU32 bo r = Ret 0 at_end /\ GGUF.readI32 bo r = Ret 0 at_end
      /\ GGUF.readF32 bo r = Ret 0 at_end)
  /\ ((length (rest r) < 8)%nat ->
      GGUF.readU64 bo r = Ret 0 at_end /\ GGUF.readI64 bo r = Ret 0 at_end
      /\ GGUF.readF64 bo r = Ret 0 at_end).
Proof.
  intros at_end.
  repeat split; intros;
    unfold GGUF.readI8, GGUF.readI16, GGUF.readI32, GGUF.readI64, GGUF.readBool,
      GGUF.readF32, GGUF.readF64, GGUF.readU8, GGUF.readU16, GGUF.readU32,
      GGUF.readU64, bind; rewrite lift_Ret, read_uint_short by assumption;
    reflexivity.
Qed.

Lemma scalar_readers_short_witness :
  GGUF.readU32 LittleEndian (Samples.from_start (Samples.chars "ab"))
  = Ret 0 {| data := Samples.chars "ab"; offset := 2 |}.
Proof.
  refine (proj1 (proj1 (proj2 (proj2 (scalar_readers_short LittleEndian
            (Samples.from_start (Samples.chars "ab"))))) _)).
  vm_compute. lia.
Defined.

Lemma swrap_signed (w x : Z) :
  0 < w -> 0 <= x < 2 ^ w -> swrap w x = signed w x.
Proof.
  intros Hw Hx. unfold swrap, signed.
  assert (H2 : 2 ^ w = 2 * 2 ^ (w - 1))
    by (rewrite <- Z.pow_succ_r by lia; f_equal; lia).
  destruct (Z.ltb_spec x (2 ^ (w - 1))).
  - rewrite Z.mod_small; lia.
  - replace (x + 2 ^ (w - 1)) with (x - 2 ^ (w - 1) + 1 * 2 ^ w) by lia.
    rewrite Z.mod_add by lia. rewrite Z.mod_small; lia.
Qed.

Lemma signed_range (w x : Z) :
  0 < w -> 0 <= x < 2 ^ w -> - 2 ^ (w - 1) <= signed w x < 2 ^ (w - 1).
Proof.
  intros Hw Hx. unfold signed.
  assert (H2 : 2 ^ w = 2 * 2 ^ (w - 1))
    by (rewrite <- Z.pow_succ_r by lia; f_equal; lia).
  destruct (Z.ltb_spec x (2 ^ (w - 1))); lia.
Qed.

(** X5: with its bytes there, a scalar reader takes exactly its width from
    the stream; the unsigned readers (and the float readers, as bits) return
    the integer of those bytes in the byte order of the container, the
    signed readers its two's complement reading, and the boolean reader
    whether the byte is not zero. *)
Theorem scalar_readers_value (bo : ByteOrder) (r r' : readSeekOffset) (x : Z) :
  (binary_Read bo 1 r = (inr x, r') ->
   GGUF.readU8 bo r = Ret x r' /\ GGUF.readI8 bo r = Ret (signed 8 x) r'
   /\ GGUF.readBool bo r = Ret (negb (x =? 0)) r'
   /\ -128 <= signed 8 x < 128 /\ r' = advance r 1)
  /\ (binary_Read bo 2 r = (inr x, r') ->
      GGUF.readU16 bo r = Ret x r' /\ GGUF.readI16 bo r = Ret (signed 16 x) r'
      /\ - 2 ^ 15 <= signed 16 x < 2 ^ 15 /\ r' = advance r 2)
  /\ (binary_Read bo 4 r = (inr x, r') ->
      GGUF.readU32 bo r = Ret x r' /\ GGUF.readI32 bo r = Ret (signed 32 x) r'
      /\ GGUF.readF32 bo r = Ret x r'
      /\ - 2 ^ 31 <= signed 32 x < 2 ^ 31 /\ r' = advance r 4)
  /\ (binary_Read bo 8 r = (inr x, r') ->
      GGUF.readU64 bo r = Ret x r' /\ GGUF.readI64 bo r = Ret (signed 64 x) r'
      /\ GGUF.readF64 bo r = Ret x r'
      /\ - 2 ^ 63 <= signed 64 x < 2 ^ 63 /\ r' = advance r 8).
Proof.
  repeat apply conj; intros H;
    pose proof (binary_Read_inr _ _ _ _ _ H) as (_ & Hr & _ & Hb);
    unfold GGUF.readI8, GGUF.readI16, GGUF.readI32, GGUF.readI64, GGUF.readBool,
      GGUF.readF32, GGUF.readF64, GGUF.readU8, GGUF.readU16, GGUF.readU32,
      GGUF.readU64, bind; rewrite !lift_Ret, !(read_uint_inr _ _ _ _ _ H);
    simpl fst; simpl snd; unfold ret;
    rewrite ?swrap_signed by (try lia; exact Hb);
    repeat split; try reflexivity; try exact Hr;
    first [ apply (signed_range 8) | apply (signed_range 16)
          | apply (signed_range 32) | apply (signed_range 64) ];
    first [lia | exact Hb].
Qed.

Lemma scalar_readers_value_witness :
  GGUF.readI8 LittleEndian (Samples.from_start (Samples.le_bytes 1 255))
  = Ret (-1) {| data := Samples.le_bytes 1 255; offset := 1 |}.
Proof.
  refine (proj1 (proj2 (proj1 (scalar_readers_value LittleEndian
            (Samples.from_start (Samples.le_bytes 1 255))
            {| data := Samples.le_bytes 1 255; offset := 1 |} 255) _))).
  reflexivity.
Defined.

(** ** Strings that are short or too long *)

Lemma CopyN_short (n : Z) (r : readSeekOffset) :
  0 < n -> Z.of_nat (length (rest r)) < n ->
  CopyN n r = (inl EOF, advance r (length (rest r))).
Proof.
  intros Hn Hlt. unfold CopyN.
  destruct (Z.leb_spec n 0); [lia|].
  destruct (Z.leb_spec n (Z.of_nat (length (rest r)))); [lia | reflexivity].
Qed.

Lemma int64_high (x : Z) : 2 ^ 63 <= x < 2 ^ 64 -> int64 x = x - 2 ^ 64.
Proof.
  intros Hx. unfold int64, swrap. change (2 ^ (64 - 1)) with (2 ^ 63).
  replace (x + 2 ^ 63) with (x - 2 ^ 63 + 1 * 2 ^ 64) by lia.
  rewrite Z.mod_add by lia. rewrite Z.mod_small; lia.
Qed.

(** X6: a string whose length prefix announces more bytes than the source
    has left is refused with [io.EOF], in version 1 and in the other
    versions alike, and the stream is left at the end of the source. *)
Theorem readString_short (c : GGUF.containerGGUF) (r r1 : readSeekOffset) (n : Z) :
  binary_Read (GGUF.bo c) (if GGUF.Version c =? 1 then 4 else 8) r = (inr n, r1) ->
  n < 2 ^ 63 ->
  Z.of_nat (length (rest r1)) < n ->
  GGUF.readString c r = Ret (inl EOF) (advance r1 (length (rest r1))).
Proof.
  intros Hread H63 Hlt.
  pose proof (binary_Read_inr _ _ _ _ _ Hread) as (_ & _ & _ & Hb).
  unfold GGUF.readString, GGUF.readStringV1.
  destruct (GGUF.Version c =? 1); unfold bind, lift;
    rewrite (read_uint_inr _ _ _ _ _ Hread), int64_small by lia;
    rewrite CopyN_short by lia; reflexivity.
Qed.

Lemma readString_short_witness :
  GGUF.readString (Samples.gguf_v 3) (Samples.from_start MoreSamples.short_string)
  = Ret (inl EOF) {| data := MoreSamples.short_string; offset := 10 |}.
Proof.
  refine (readString_short (Samples.gguf_v 3)
            (Samples.from_start MoreSamples.short_string)
            {| data := MoreSamples.short_string; offset := 8 |} 5 _ _ _).
  - reflexivity.
  - lia.
  - vm_compute. reflexivity.
Defined.

(** X7: outside version 1, a length prefix of [2^63] or more is a negative
    count for [io.CopyN], which copies nothing and reports nothing: the
    string is empty, there is no error, and the stream stays just after the
    prefix. *)
Theorem readString_negative_length (c : GGUF.containerGGUF)
    (r r1 : readSeekOffset) (n : Z) :
  GGUF.Version c <> 1 ->
  binary_Read (GGUF.bo c) 8 r = (inr n, r1) ->
  2 ^ 63 <= n ->
  GGUF.readString c r = Ret (inr ""%string) r1.
Proof.
  intros Hv Hread Hn.
  pose proof (binary_Read_inr _ _ _ _ _ Hread) as (_ & _ & _ & Hb).
  change (256 ^ Z.of_nat 8) with (2 ^ 64) in Hb.
  unfold GGUF.readString. apply Z.eqb_neq in Hv. rewrite Hv.
  unfold bind, lift. rewrite (read_uint_inr _ _ _ _ _ Hread).
  rewrite int64_high by lia. unfold CopyN.
  destruct (Z.leb_spec (n - 2 ^ 64) 0); [reflexivity | lia].
Qed.

Lemma readString_negative_length_witness :
  GGUF.readString (Samples.gguf_v 3) (Samples.from_start MoreSamples.huge_string)
  = Ret (inr ""%string) {| data := MoreSamples.huge_string; offset := 8 |}.
Proof.
  refine (readString_negative_length (Samples.gguf_v 3)
            (Samples.from_start MoreSamples.huge_string)
            {| data := MoreSamples.huge_string; offset := 8 |} (2 ^ 63) _ _ _).
  - discriminate.
  - reflexivity.
  - lia.
Defined.

(** ** Values and their tags *)

Lemma ok_sat {A} (P : value -> Prop) (f : A -> value) (m : M A)
    (r r' : readSeekOffset) (v : value) :
  (forall x, P (f x)) -> GGUF.ok f m r = Ret (inr v) r' -> P v.
Proof.
  intros Hf H. unfold GGUF.ok in H. inv_bind H. injection H as <- _. apply Hf.
Qed.

Lemma str_sat (P : value -> Prop) (m : M (error + string))
    (r r' : readSeekOffset) (v : value) :
  (forall s, P (VString s)) -> GGUF.str m r = Ret (inr v) r' -> P v.
Proof.
  intros Hf H. unfold GGUF.str in H. inv_bind H.
  destruct a; [discriminate|]. injection H as <- _. apply Hf.
Qed.

Ltac by_tag H :=
  repeat match type of H with
         | (if ?x =? ?y then _ else _) _ = _ =>
             destruct (Z.eqb_spec x y) as [->|]
         end;
  try discriminate H;
  try (match goal with |- context [tag_of ?v] => pattern v end;
       first [ eapply ok_sat; [|exact H] | eapply str_sat; [|exact H] ];
       intros; split; first [reflexivity | exact I]).

Lemma readElem_tag (c : GGUF.containerGGUF) (atype : Z)
    (r r' : readSeekOffset) (v : value) :
  GGUF.readElem c atype r = Ret (inr v) r' ->
  tag_of v = atype /\ is_array v = false.
Proof. unfold GGUF.readElem. intros H. by_tag H. Qed.

Lemma readElemV1_tag (bo : ByteOrder) (atype : Z)
    (r r' : readSeekOffset) (v : value) :
  GGUF.readElemV1 bo atype r = Ret (inr v) r' ->
  tag_of v = atype /\ is_array v = false.
Proof. unfold GGUF.readElemV1. intros H. by_tag H. Qed.

Lemma readElems_sat (P : value -> Prop) (elem : M (error + value)) (n : nat) :
  (forall r r' v, elem r = Ret (inr v) r' -> P v) ->
  forall (arr a : list value) (r r' : readSeekOffset),
    GGUF.readElems elem n arr r = Ret (inr a) r' ->
    Forall P arr ->
    Forall P a /\ length a = (length arr + n)%nat.
Proof.
  intros Helem. induction n as [|n IH]; intros arr a r r' H Harr; simpl in H.
  - injection H as <- _. split; [assumption | lia].
  - inv_bind H. destruct a0 as [err|v]; [discriminate|].
    apply IH in H as (HFa & Hlen).
    + split; [assumption|]. rewrite Hlen, length_app. simpl. lia.
    + apply Forall_app. split; [assumption|]. constructor; [|constructor].
      eapply Helem; eauto.
Qed.

(** X8: the count and the elements of an array: with the element tag and
    the count there to read (a 32-bit count in version 1, a 64-bit count
    otherwise), an array that [readArray] returns has as many elements as
    the count says, each of the variant of the element tag and none an
    array; and with a count of zero [readArray] returns the empty array
    whatever the element tag is. *)
Theorem readArray_elements (c : GGUF.containerGGUF)
    (r r1 r2 : readSeekOffset) (atype n : Z) :
  binary_Read (GGUF.bo c) 4 r = (inr atype, r1) ->
  binary_Read (GGUF.bo c) (if GGUF.Version c =? 1 then 4 else 8) r1 = (inr n, r2) ->
  (forall a r',
      GGUF.readArray c r = Ret (inr a) r' ->
      Z.of_nat (length a) = n
      /\ Forall (fun v => tag_of v = atype /\ is_array v = false) a)
  /\ (n = 0 -> GGUF.readArray c r = Ret (inr []) r2).
Proof.
  intros Ha Hn.
  pose proof (binary_Read_inr _ _ _ _ _ Hn) as (_ & _ & _ & Hb).
  assert (Heq : GGUF.readArray c r
                = GGUF.readElems
                    (if GGUF.Version c =? 1 then GGUF.readElemV1 (GGUF.bo c) atype
                     else GGUF.readElem c atype) (Z.to_nat n) [] r2).
  { unfold GGUF.readArray, GGUF.readArrayV1.
    destruct (GGUF.Version c =? 1);
      unfold bind at 1; unfold GGUF.readU32 at 1; rewrite lift_Ret;
      rewrite (read_uint_inr _ _ _ _ _ Ha); simpl fst; simpl snd;
      unfold bind at 1; unfold GGUF.readU32, GGUF.readU64; rewrite lift_Ret;
      rewrite (read_uint_inr _ _ _ _ _ Hn); reflexivity. }
  rewrite Heq. split.
  - intros a r' H.
    apply (readElems_sat (fun v => tag_of v = atype /\ is_array v = false)) in H
      as (HF & Hlen); [| | constructor].
    + split; [simpl in Hlen; lia | exact HF].
    + intros ra rb v Hv. destruct (GGUF.Version c =? 1);
        [eapply readElemV1_tag | eapply readElem_tag]; eauto.
  - intros ->. reflexivity.
Qed.

Lemma readArray_elements_witness :
  GGUF.readArray (Samples.gguf_v 3) (Samples.from_start MoreSamples.array_none)
  = Ret (inr []) {| data := MoreSamples.array_none; offset := 12 |}
  /\ forall a r',
      GGUF.readArray (Samples.gguf_v 3) (Samples.from_start MoreSamples.array_u16)
      = Ret (inr a) r' ->
      Z.of_nat (length a) = 3
      /\ Forall (fun v => tag_of v = 2 /\ is_array v = false) a.
Proof.
  split.
  - refine (proj2 (readArray_elements (Samples.gguf_v 3)
                     (Samples.from_start MoreSamples.array_none)
                     {| data := MoreSamples.array_none; offset := 4 |}
                     {| data := MoreSamples.array_none; offset := 12 |}
                     255 0 _ _) eq_refl); reflexivity.
  - refine (proj1 (readArray_elements (Samples.gguf_v 3)
                     (Samples.from_start MoreSamples.array_u16)
                     {| data := MoreSamples.array_u16; offset := 4 |}
                     {| data := MoreSamples.array_u16; offset := 12 |}
                     2 3 _ _)); reflexivity.
Defined.

Lemma readArray_flat (c : GGUF.containerGGUF) (r r' : readSeekOffset)
    (a : list value) :
  GGUF.readArray c r = Ret (inr a) r' ->
  exists atype, Forall (fun v => tag_of v = atype /\ is_array v = false) a.
Proof.
  unfold GGUF.readArray, GGUF.readArrayV1. intros H.
  destruct (GGUF.Version c =? 1); inv_bind H; inv_bind H;
    match type of H with
    | GGUF.readElems (_ _ ?t) _ _ _ = _ => exists t
    end;
    (eapply readElems_sat in H;
     [ destruct H as [HF _]; exact HF
     | intros ra rb v Hv;
       first [eapply readElemV1_tag; eassumption | eapply readElem_tag; eassumption]
     | constructor ]).
Qed.

(** X9: a value that the value switch of [decode] returns is of the variant
    of its tag, and when it is an array, the array is flat: its elements are
    all of one tag and none of them is an array. *)
Theorem readValue_typed (c : GGUF.containerGGUF) (vtype : Z)
    (r r' : readSeekOffset) (v : value) :
  GGUF.readValue c vtype r = Ret (inr v) r' ->
  tag_of v = vtype /\ flat v.
Proof.
  unfold GGUF.readValue. intros H. by_tag H.
  inv_bind H. destruct a as [err|a]; [discriminate|]. injection H as <- _.
  split; [reflexivity|]. simpl. eapply readArray_flat; eauto.
Qed.

Lemma readValue_typed_witness :
  exists v r',
    GGUF.readValue (Samples.gguf_v 3) 9 (Samples.from_start MoreSamples.array_u16)
    = Ret (inr v) r'
    /\ v = VArray [VUint16 7; VUint16 8; VUint16 9]
    /\ tag_of v = 9 /\ flat v.
Proof.
  eexists _, _. split; [vm_compute; reflexivity|]. split; [reflexivity|].
  refine (readValue_typed (Samples.gguf_v 3) 9
            (Samples.from_start MoreSamples.array_u16) _ _ _).
  vm_compute. reflexivity.
Defined.

(** ** The tensor entries of Format A *)

Lemma read_uint_wire (bo : ByteOrder) (n : nat) (r : readSeekOffset) :
  0 <= offset r ->
  offset r + Z.of_nat n <= Z.of_nat (length (data r)) ->
  GGUF.read_uint bo n r
  = (wire_uint bo n (data r) (offset r), at_offset r (offset r + Z.of_nat n)).
Proof.
  intros Ho Hn. unfold GGUF.read_uint, binary_Read.
  rewrite ReadFull_ok by (unfold rest; rewrite length_drop; lia).
  reflexivity.
Qed.

Lemma gguf_readShape_wire (bo : ByteOrder) (n : nat) :
  forall r : readSeekOffset,
    0 <= offset r ->
    offset r + 8 * Z.of_nat n <= Z.of_nat (length (data r)) ->
    GGUF.readShape bo n r
    = Ret (map (fun i => wire_uint bo 8 (data r) (offset r + 8 * Z.of_nat i))
               (seq 0 n))
          (at_offset r (offset r + 8 * Z.of_nat n)).
Proof.
  induction n as [|n IH]; intros r Ho Hn; simpl GGUF.readShape.
  - unfold ret. simpl. f_equal. destruct r; unfold at_offset; simpl; f_equal; lia.
  - unfold bind at 1. unfold GGUF.readU64 at 1. rewrite lift_Ret.
    rewrite read_uint_wire by lia. simpl fst. simpl snd.
    unfold bind at 1. rewrite IH by (simpl; lia). unfold ret. simpl data. simpl offset.
    f_equal.
    + simpl. rewrite Z.add_0_r. f_equal.
      rewrite <- seq_shift, map_map. apply map_ext. intros i. f_equal. lia.
    + unfold at_offset; simpl; f_equal; lia.
Qed.

(** X10: a tensor entry of Format A, with its bytes there, gives the tensor
    the dimensions in the order of the stream (no reversal): after the name,
    a 32-bit count [dims], then [dims] 64-bit dimensions, the 32-bit kind and
    the 64-bit offset, which the descriptor keeps as they are read. *)
Theorem gguf_tensor_in_wire_order (c : GGUF.containerGGUF)
    (r r1 : readSeekOffset) (name : string) :
  GGUF.readString c r = Ret (inr name) r1 ->
  0 <= offset r1 ->
  let d := data r1 in
  let o := offset r1 in
  let dims := Z.to_nat (wire_uint (GGUF.bo c) 4 d o) in
  o + 4 + 8 * Z.of_nat dims + 12 <= Z.of_nat (length d) ->
  GGUF.decode_tensor c r
  = Ret (inr {| Name := name;
                Kind := wire_uint (GGUF.bo c) 4 d (o + 4 + 8 * Z.of_nat dims);
                t_offset := wire_uint (GGUF.bo c) 8 d (o + 8 + 8 * Z.of_nat dims);
                Shape := map (fun i => wire_uint (GGUF.bo c) 8 d
                                         (o + 4 + 8 * Z.of_nat i))
                             (seq 0 dims) |})
        (at_offset r1 (o + 16 + 8 * Z.of_nat dims)).
Proof.
  intros Hname Ho d o dims Hlen.
  unfold GGUF.decode_tensor. unfold bind at 1. rewrite Hname.
  unfold bind at 1. unfold GGUF.readU32 at 1. rewrite lift_Ret.
  rewrite read_uint_wire by (fold d o; simpl; lia). simpl fst. simpl snd.
  fold d o dims.
  unfold bind at 1. rewrite gguf_readShape_wire by (simpl; fold d o; lia).
  simpl data. simpl offset. fold d.
  unfold bind at 1. unfold GGUF.readU32 at 1. rewrite lift_Ret.
  rewrite read_uint_wire by (simpl; fold d o; lia). simpl fst. simpl snd.
  simpl data. simpl offset. fold d.
  unfold bind at 1. unfold GGUF.readU64 at 1. rewrite lift_Ret.
  rewrite read_uint_wire by (simpl; fold d o; lia). simpl fst. simpl snd.
  simpl data. simpl offset. fold d. unfold ret.
  f_equal.
  - f_equal. f_equal; try (f_equal; lia).
  - unfold at_offset; simpl; f_equal; lia.
Qed.

Lemma gguf_tensor_in_wire_order_witness :
  GGUF.decode_tensor (Samples.gguf_v3 2 1)
    (at_offset (Samples.after_header Samples.aligned64) 57)
  = Ret (inr {| Name := "a"; Kind := 0; t_offset := 0; Shape := [2; 3] |})
        (at_offset (Samples.after_header Samples.aligned64) 98).
Proof.
  refine (gguf_tensor_in_wire_order (Samples.gguf_v3 2 1)
            (at_offset (Samples.after_header Samples.aligned64) 57)
            (at_offset (Samples.after_header Samples.aligned64) 66) "a" _ _ _).
  - vm_compute. reflexivity.
  - simpl. lia.
  - vm_compute. discriminate.
Defined.

(** ** More on the tensor entries of Format B *)

Lemma land_32_multiple (x : Z) : Z.land x (-32) = 32 * (x / 32).
Proof.
  change (-32) with (Z.lnot (Z.ones 5)).
  rewrite <- Z.ldiff_land, Z.ldiff_ones_r by lia.
  rewrite Z.shiftl_mul_pow2, Z.shiftr_div_pow2 by lia.
  change (2 ^ 5) with 32. lia.
Qed.

Lemma decode_tensor_offset (oracle : SizeOracle) (r r' : readSeekOffset) (t : tensor) :
  GGLA.decode_tensor oracle r = (inr t, r') ->
  t_offset t mod 32 = 0 /\ 0 <= t_offset t < 2 ^ 63
  /\ offset r' = t_offset t + int64 (tensor_size oracle t).
Proof.
  intros H. apply decode_tensor_inv in H as (_ & _ & Hoff & -> & Hq & _).
  cbv zeta in *. simpl offset.
  rewrite Hoff. clear Hoff.
  match type of Hq with 0 <= Z.land ?x _ < _ => generalize dependent x end.
  intros x Hq. pose proof (land_32_multiple x) as Hm.
  set (q := Z.land x (-32)) in *.
  unfold uint64, wrap. rewrite (Z.mod_small q (2 ^ 64)) by lia.
  split; [|split; [lia | reflexivity]].
  rewrite Hm, Z.mul_comm. apply Z.mod_mul. lia.
Qed.

Lemma Decode_tensors_from (oracle : SizeOracle) (fuel : nat)
    (c : GGLA.containerGGLA) (r r' : readSeekOffset)
    (m : GGLA.modelGGLA) (e : option error) :
  GGLA.Decode oracle fuel c r = Some (Some m, e, r') ->
  Forall (fun t => exists ri ri',
              GGLA.decode_tensor oracle ri = (inr t, ri') /\ data ri = data r)
         (GGLA.tensors m).
Proof.
  intros H. unfold GGLA.Decode in H.
  destruct (GGLA.read_version c r) as [v r1] eqn:Hv.
  destruct (v =? 1); [|discriminate].
  destruct (GGLA.decode oracle fuel _ r1) as [[[m1 err] r2]|] eqn:Hdec;
    [|discriminate].
  injection H as <- _ _.
  apply decode_from in Hdec as (_ & new & Hts & Hnew).
  rewrite Hts. simpl.
  assert (Hdata : data r1 = data r).
  { unfold GGLA.read_version in Hv.
    destruct (GGLA.read_u32 r) as [[err'|x] rx] eqn:Hx; injection Hv as _ <-;
      eapply read_u32_data; eauto. }
  eapply Forall_impl; [exact Hnew|].
  intros t (ri & ri' & Ht & Hri). exists ri, ri'. now rewrite <- Hdata.
Qed.

(** X11: the byte offset of a tensor of Format B is a multiple of 32: a round
    of the tensor loop gives the tensor the position the stream is sent to
    after the name, which is below [2^63] and divisible by 32 (the smallest
    such position from the end of the name on, when the source fits a signed
    64-bit offset), and then moves the stream on by the size of the tensor.
    This holds for every tensor of a model that [Decode] returns. *)
Theorem ggla_offsets_aligned (oracle : SizeOracle) :
  (forall r r' t,
      GGLA.decode_tensor oracle r = (inr t, r') ->
      t_offset t mod 32 = 0 /\ 0 <= t_offset t < 2 ^ 63
      /\ offset r' = t_offset t + int64 (tensor_size oracle t)
      /\ (0 <= offset r -> Z.of_nat (length (data r)) + 31 < 2 ^ 63 ->
          let d := data r in
          let o := offset r in
          let name_end := o + 12 + 4 * Z.of_nat (Z.to_nat (GGLA.wire_u32 d o))
                          + Z.of_nat (Z.to_nat (GGLA.wire_u32 d (o + 4))) in
          t_offset t = round_up 32 name_end))
  /\ (forall fuel c r m e r',
         GGLA.Decode oracle fuel c r = Some (Some m, e, r') ->
         Forall (fun t => t_offset t mod 32 = 0 /\ 0 <= t_offset t < 2 ^ 63)
                (GGLA.tensors m)).
Proof.
  split.
  - intros r r' t H.
    destruct (decode_tensor_offset oracle r r' t H) as (Hm & Hb & Hr).
    repeat split; try assumption; try lia.
    intros Ho Hlen d o name_end.
    apply decode_tensor_inv in H as (_ & _ & Hoff & _ & Hq & _ & _ & Hp).
    specialize (Hp Ho). cbv zeta in Hp, Hoff, Hq. fold d o name_end in Hp, Hoff, Hq.
    rewrite Hoff. clear Hoff.
    assert (Hne : 0 <= name_end + 31 < 2 ^ 63) by (unfold name_end, o, d in *; lia).
    rewrite (int64_small _ Hne) in Hq |- *.
    set (q := Z.land (name_end + 31) (-32)) in *.
    unfold uint64, wrap. rewrite (Z.mod_small q (2 ^ 64)) by lia. subst q.
    pose proof (land_lnot_round_up 5 name_end ltac:(lia)) as HR.
    change (Z.lnot (2 ^ 5 - 1)) with (-32) in HR. change (2 ^ 5) with 32 in HR.
    replace (name_end + 32 - 1) with (name_end + 31) in HR by lia. exact HR.
  - intros fuel c r m e r' H. apply Decode_tensors_from in H.
    eapply Forall_impl; [exact H|].
    intros t (ri & ri' & Ht & _).
    destruct (decode_tensor_offset oracle ri ri' t Ht) as (Hm & Hb & _). auto.
Qed.

Lemma ggla_offsets_aligned_witness :
  exists t r',
    GGLA.decode_tensor float_oracle
      (at_offset (Samples.after_ggla_magic Samples.adapter) 16) = (inr t, r')
    /\ t_offset t = 64 /\ t_offset t mod 32 = 0 /\ offset r' = 88.
Proof.
  eexists _, _. split; [vm_compute; reflexivity|]. split; [reflexivity|].
  edestruct (proj1 (ggla_offsets_aligned float_oracle)
               (at_offset (Samples.after_ggla_magic Samples.adapter) 16))
    as (Hm & _ & Hr & _).
  - vm_compute. reflexivity.
  - split; [exact Hm|]. rewrite Hr. vm_compute. reflexivity.
Defined.

(** X12: a round of the tensor loop of Format B takes the kind from the third
    word of the entry and the name from the bytes after the dimensions, as
    many as the second word says, with nothing stripped. *)
Theorem ggla_name_and_kind (oracle : SizeOracle) (r r' : readSeekOffset) (t : tensor) :
  GGLA.decode_tensor oracle r = (inr t, r') ->
  0 <= offset r ->
  let d := data r in
  let o := offset r in
  let dims := Z.to_nat (GGLA.wire_u32 d o) in
  let namesize := Z.to_nat (GGLA.wire_u32 d (o + 4)) in
  Kind t = GGLA.wire_u32 d (o + 8)
  /\ Name t = string_of_list_byte
               (take namesize (drop (Z.to_nat (o + 12 + 4 * Z.of_nat dims)) d))
  /\ String.length (Name t) = namesize.
Proof.
  intros H Ho d o dims namesize. unfold GGLA.decode_tensor in H.
  apply ebind_inr in H as (dims' & ra & Hdims & H).
  apply ebind_inr in H as (ns & rb & Hns & H).
  apply ebind_inr in H as (kind & rc & Hkind & H).
  apply ebind_inr in H as (shape & rd & Hshape & H).
  apply ebind_inr in H as (name & re & Hname & H).
  apply ebind_inr in H as ([] & rf & Hseek & H).
  apply ebind_inr in H as ([] & rg & Hskip & H).
  apply read_u32_wire in Hdims as (Hd & -> & _ & _).
  apply read_u32_wire in Hns as (Hn & -> & _ & _).
  apply read_u32_wire in Hkind as (Hk & -> & _ & _).
  apply readShape_wire in Hshape as (_ & -> & _).
  apply ReadFull_inr in Hname as (Hnm & -> & Hnlen).
  unfold rest in Hnm, Hnlen. rewrite length_drop in Hnlen.
  simpl data in *. simpl offset in *.
  injection H as <- _. simpl. fold d o in Hd, Hn, Hk, Hnm, Hnlen.
  assert (Hname : name = take namesize
                           (drop (Z.to_nat (o + 12 + 4 * Z.of_nat dims)) d)).
  { rewrite Hnm. unfold namesize, dims. rewrite <- Hn, <- Hd. do 3 f_equal. lia. }
  repeat split.
  - rewrite Hk. f_equal. lia.
  - now rewrite Hname.
  - rewrite length_string_of_list_byte, Hnm, length_take.
    unfold namesize. rewrite <- Hn, length_drop. lia.
Qed.

Lemma ggla_name_and_kind_witness :
  exists t r',
    GGLA.decode_tensor float_oracle
      (at_offset (Samples.after_ggla_magic Samples.adapter) 16) = (inr t, r')
    /\ Kind t = 0 /\ Name t = "a.loraA"%string.
Proof.
  eexists _, _. split; [vm_compute; reflexivity|].
  edestruct (ggla_name_and_kind float_oracle
               (at_offset (Samples.after_ggla_magic Samples.adapter) 16))
    as (Hk & Hn & _).
  - vm_compute. reflexivity.
  - simpl. lia.
  - split; [rewrite Hk | rewrite Hn]; vm_compute; reflexivity.
Defined.

(** ** The store and the number of tensors of Format B *)

(** X13: the store of a model of Format B holds nothing but the two
    hyperparameters: every key is "r" or "alpha" and every value an unsigned
    32-bit integer; "alpha" is there only with "r", and a model with a
    tensor has both. *)
Theorem ggla_store_keys (oracle : SizeOracle) (fuel : nat)
    (c : GGLA.containerGGLA) (r r' : readSeekOffset)
    (m : GGLA.modelGGLA) (e : option error) :
  GGLA.Decode oracle fuel c r = Some (Some m, e, r') ->
  (forall k v, GGLA.kv m !! k = Some v ->
               (k = "r"%string \/ k = "alpha"%string)
               /\ exists x, v = VUint32 x /\ 0 <= x < 2 ^ 32)
  /\ (is_Some (GGLA.kv m !! "alpha"%string) -> is_Some (GGLA.kv m !! "r"%string))
  /\ (GGLA.tensors m <> [] -> is_Some (GGLA.kv m !! "alpha"%string)).
Proof.
  intros H. unfold GGLA.Decode in H.
  destruct (GGLA.read_version c r) as [v r1].
  destruct (v =? 1); [|discriminate].
  destruct (GGLA.decode oracle fuel _ r1) as [[[m1 err] r2]|] eqn:Hdec;
    [|discriminate].
  injection H as <- _ _. unfold GGLA.decode in Hdec. simpl in Hdec.
  destruct (GGLA.read_u32 r1) as [[err1|rank] ra] eqn:H1.
  { injection Hdec as <- _ _. simpl. repeat split.
    - rewrite lookup_empty in H. discriminate.
    - rewrite lookup_empty in H. discriminate.
    - rewrite lookup_empty. intros [x Hx]. discriminate.
    - congruence. }
  apply read_u32_wire in H1 as (_ & _ & Hrank & _).
  destruct (GGLA.read_u32 ra) as [[err2|alpha] rb] eqn:H2.
  { injection Hdec as <- _ _. simpl. repeat split.
    - destruct (decide (k = "r"%string)) as [->|Hk]; [now left|].
      rewrite lookup_insert_ne, lookup_empty in H by congruence. discriminate.
    - destruct (decide (k = "r"%string)) as [->|Hk].
      + rewrite lookup_insert_eq in H. injection H as <-. eauto.
      + rewrite lookup_insert_ne, lookup_empty in H by congruence. discriminate.
    - intros _. rewrite lookup_insert_eq. eauto.
    - congruence. }
  apply read_u32_wire in H2 as (_ & _ & Halpha & _).
  destruct (GGLA.decode_tensors oracle fuel [] rb) as [[[ts err3] rc]|];
    [|discriminate].
  injection Hdec as <- _ _. simpl. repeat split.
  - destruct (decide (k = "alpha"%string)) as [->|Hk]; [now right|].
    rewrite lookup_insert_ne in H by congruence.
    destruct (decide (k = "r"%string)) as [->|Hk']; [now left|].
    rewrite lookup_insert_ne, lookup_empty in H by congruence. discriminate.
  - destruct (decide (k = "alpha"%string)) as [->|Hk].
    + rewrite lookup_insert_eq in H. injection H as <-. eauto.
    + rewrite lookup_insert_ne in H by congruence.
      destruct (decide (k = "r"%string)) as [->|Hk'].
      * rewrite lookup_insert_eq in H. injection H as <-. eauto.
      * rewrite lookup_insert_ne, lookup_empty in H by congruence. discriminate.
  - intros _. rewrite lookup_insert_ne by discriminate.
    rewrite lookup_insert_eq. eauto.
  - intros _. rewrite lookup_insert_eq. eauto.
Qed.

Lemma ggla_store_keys_witness :
  exists m e r',
    GGLA.Decode float_oracle 3 Samples.ggla0 (Samples.after_ggla_magic Samples.adapter)
    = Some (Some m, e, r')
    /\ is_Some (GGLA.kv m !! "alpha"%string)
    /\ forall k v, GGLA.kv m !! k = Some v ->
                   (k = "r"%string \/ k = "alpha"%string)
                   /\ exists x, v = VUint32 x /\ 0 <= x < 2 ^ 32.
Proof.
  eexists _, _, _. split; [vm_compute; reflexivity|].
  edestruct (ggla_store_keys float_oracle 3 Samples.ggla0
               (Samples.after_ggla_magic Samples.adapter)) as (H1 & _ & H3).
  - vm_compute. reflexivity.
  - split; [apply H3; discriminate | exact H1].
Defined.

Lemma read_u32_offset (r r' : readSeekOffset) (x : error + Z) :
  GGLA.read_u32 r = (x, r') -> offset r <= offset r'.
Proof.
  unfold GGLA.read_u32, binary_Read, ReadFull.
  destruct (4 <=? length (rest r))%nat; intros [= _ <-]; simpl; lia.
Qed.

Lemma decode_tensors_room (oracle : SizeOracle) (fuel : nat) :
  forall (ts ts' : list tensor) (r r' : readSeekOffset) (e : error),
    GGLA.decode_tensors oracle fuel ts r = Some (ts', e, r') ->
    0 <= offset r ->
    Z.of_nat (length (data r)) + 31 < 2 ^ 63 ->
    exists new,
      ts' = ts ++ new
      /\ (Forall (fun t => 0 <= int64 (tensor_size oracle t)) new ->
          offset r + 12 * Z.of_nat (length new)
          <= Z.max (offset r) (Z.of_nat (length (data r)))).
Proof.
  induction fuel as [|fuel IH]; intros ts ts' r r' e H Ho Hlen; simpl in H;
    [discriminate|].
  destruct (GGLA.decode_tensor oracle r) as [[err|t] r1] eqn:Ht.
  - injection H as <- _ _. exists []. rewrite app_nil_r. split; [reflexivity|].
    intros _. simpl. lia.
  - pose proof (decode_tensor_inv oracle r r1 t Ht)
      as (_ & _ & _ & Hr1 & _ & Hq & _ & Hp).
    specialize (Hp Ho). cbv zeta in Hp, Hq, Hr1.
    assert (Ho1 : 0 <= offset r1) by (rewrite Hr1; simpl; lia).
    assert (Hd1 : data r1 = data r) by (rewrite Hr1; reflexivity).
    destruct (IH _ _ _ _ _ H Ho1) as (new & -> & Hnew);
      [rewrite Hd1; exact Hlen|].
    exists (t :: new). rewrite <- app_assoc. split; [reflexivity|].
    intros HF. pose proof (Forall_inv HF) as Ht0. simpl in Ht0.
    specialize (Hnew (Forall_inv_tail HF)). rewrite Hd1 in Hnew.
    destruct (decode_tensor_advances oracle r r1 t Ht Ho Hlen Ht0) as (Hadv & _ & _).
    simpl length. lia.
Qed.

(** X14: a model of Format B has no more tensors than the source has room
    for: when the stream starts at a position that is not negative, the
    source fits a signed 64-bit offset and every tensor of the model is
    skipped by a distance that is not negative, twelve bytes of the source
    stand behind each tensor. *)
Theorem ggla_tensors_fit (oracle : SizeOracle) (fuel : nat)
    (c : GGLA.containerGGLA) (r r' : readSeekOffset)
    (m : GGLA.modelGGLA) (e : option error) :
  GGLA.Decode oracle fuel c r = Some (Some m, e, r') ->
  0 <= offset r ->
  Z.of_nat (length (data r)) + 31 < 2 ^ 63 ->
  Forall (fun t => 0 <= int64 (tensor_size oracle t)) (GGLA.tensors m) ->
  12 * Z.of_nat (length (GGLA.tensors m)) <= Z.of_nat (length (data r)).
Proof.
  intros H Ho Hlen HF. unfold GGLA.Decode in H.
  destruct (GGLA.read_version c r) as [v r1] eqn:Hv.
  assert (H1 : offset r <= offset r1 /\ data r1 = data r).
  { unfold GGLA.read_version in Hv.
    destruct (GGLA.read_u32 r) as [[err'|x] rx] eqn:Hx; injection Hv as _ <-;
      (split; [eapply read_u32_offset | eapply read_u32_data]; eauto). }
  destruct H1 as [Ho1 Hd1].
  destruct (v =? 1); [|discriminate].
  destruct (GGLA.decode oracle fuel _ r1) as [[[m1 err] r2]|] eqn:Hdec;
    [|discriminate].
  injection H as <- _ _. unfold GGLA.decode in Hdec. simpl in Hdec.
  destruct (GGLA.read_u32 r1) as [[err1|rank] ra] eqn:Ha.
  { injection Hdec as <- _ _. simpl. lia. }
  destruct (GGLA.read_u32 ra) as [[err2|alpha] rb] eqn:Hb.
  { injection Hdec as <- _ _. simpl. lia. }
  pose proof (read_u32_offset _ _ _ Ha). pose proof (read_u32_offset _ _ _ Hb).
  pose proof (read_u32_data _ _ _ Ha) as Hda.
  pose proof (read_u32_data _ _ _ Hb) as Hdb.
  destruct (GGLA.decode_tensors oracle fuel [] rb) as [[[ts err3] rc]|] eqn:Hts;
    [|discriminate].
  injection Hdec as <- _ _. simpl in *.
  apply decode_tensors_room in Hts as (new & -> & Hnew);
    [| lia | rewrite Hdb, Hda, Hd1; exact Hlen].
  simpl in *. specialize (Hnew HF). rewrite Hdb, Hda, Hd1 in Hnew. lia.
Qed.

Lemma ggla_tensors_fit_witness :
  exists m e r',
    GGLA.Decode float_oracle 3 Samples.ggla0 (Samples.after_ggla_magic Samples.adapter)
    = Some (Some m, e, r')
    /\ 12 * Z.of_nat (length (GGLA.tensors m))
       <= Z.of_nat (length (data (Samples.after_ggla_magic Samples.adapter))).
Proof.
  eexists _, _, _. split; [vm_compute; reflexivity|].
  eapply (ggla_tensors_fit float_oracle 3 Samples.ggla0
            (Samples.after_ggla_magic Samples.adapter)).
  - vm_compute. reflexivity.
  - simpl. lia.
  - vm_compute. reflexivity.
  - repeat constructor; vm_compute; discriminate.
Defined.

(** ** Rejected versions and the decoder of the header alone *)

(** X15: a stream with fewer than four bytes left has no version: the read
    fails, the container keeps the version it had, and with a version other
    than 1 there (0 in a fresh container) both decoders of Format B return
    the invalid-version error and no model, the stream at the end of the
    source. *)
Theorem ggla_no_version (oracle : SizeOracle) (fuel : nat)
    (c : GGLA.containerGGLA) (r : readSeekOffset) :
  (length (rest r) < 4)%nat ->
  GGLA.version c <> 1 ->
  let at_end := advance r (length (rest r)) in
  GGLA.Decode oracle fuel c r = Some (None, Some ErrInvalidVersion, at_end)
  /\ GGLAHeader.Decode c r = (None, Some ErrInvalidVersion, at_end).
Proof.
  intros Hlen Hv at_end.
  assert (Hread : GGLA.read_version c r = (GGLA.version c, at_end)).
  { unfold GGLA.read_version, GGLA.read_u32, binary_Read, ReadFull.
    destruct (Nat.leb_spec 4 (length (rest r))); [lia | reflexivity]. }
  apply Z.eqb_neq in Hv.
  unfold GGLA.Decode, GGLAHeader.Decode. rewrite Hread, Hv. auto.
Qed.

Lemma ggla_no_version_witness :
  GGLA.Decode float_oracle 0 Samples.ggla0 (Samples.after_ggla_magic [])
  = Some (None, Some ErrInvalidVersion, Samples.after_ggla_magic []).
Proof.
  refine (proj1 (ggla_no_version float_oracle 0 Samples.ggla0
                   (Samples.after_ggla_magic []) _ _)).
  - vm_compute. lia.
  - discriminate.
Defined.

(** X16: the decoder of the header alone accepts version 1 and nothing else:
    with version 1 it returns a model and no error and leaves the stream at
    the end of the source, the model showing an empty store and no tensor;
    with any other version it returns the invalid-version error and no
    model, the stream just after the version, as the decoder with tensors
    does on the same stream. *)
Theorem header_decoder (c : GGLA.containerGGLA) (r r1 : readSeekOffset) (v : Z) :
  binary_Read LittleEndian 4 r = (inr v, r1) ->
  Z.of_nat (length (data r)) < 2 ^ 63 ->
  (v = 1 ->
   exists m,
     GGLAHeader.Decode c r
     = (Some m, None, at_offset r (Z.of_nat (length (data r))))
     /\ GGLA.version (GGLAHeader.container m) = 1
     /\ GGLAHeader.KV m = ∅ /\ GGLAHeader.Tensor m = [])
  /\ (v <> 1 ->
      GGLAHeader.Decode c r = (None, Some ErrInvalidVersion, r1)
      /\ forall oracle fuel,
          GGLA.Decode oracle fuel c r = Some (None, Some ErrInvalidVersion, r1)).
Proof.
  intros Hread Hlen.
  assert (Hver : GGLA.read_version c r = (v, r1)).
  { unfold GGLA.read_version, GGLA.read_u32. now rewrite Hread. }
  apply binary_Read_inr in Hread as (_ & -> & _).
  split.
  - intros ->. exists (GGLAHeader.newGGLAModel {| GGLA.version := 1 |}).
    unfold GGLAHeader.Decode. rewrite Hver. simpl.
    unfold Seek. simpl.
    destruct (Z.leb_spec 0 (Z.of_nat (length (data r)) + 0)); [|lia].
    destruct (Z.ltb_spec (Z.of_nat (length (data r)) + 0) (2 ^ 63)); [|lia].
    simpl. repeat split. f_equal. unfold at_offset. simpl. f_equal. lia.
  - intros Hv. apply Z.eqb_neq in Hv.
    unfold GGLAHeader.Decode, GGLA.Decode. rewrite Hver, Hv. auto.
Qed.

Lemma header_decoder_witness :
  exists m,
    GGLAHeader.Decode Samples.ggla0 (Samples.after_ggla_magic Samples.adapter)
    = (Some m, None,
       at_offset (Samples.after_ggla_magic Samples.adapter) 144)
    /\ GGLAHeader.KV m = ∅.
Proof.
  edestruct (proj1 (header_decoder Samples.ggla0
                      (Samples.after_ggla_magic Samples.adapter)
                      (at_offset (Samples.after_ggla_magic Samples.adapter) 8) 1
                      eq_refl ltac:(vm_compute; reflexivity)) eq_refl)
    as (m & HD & _ & HK & _).
  exists m. split; [exact HD | exact HK].
Defined.

(** ** Errors of strings in Format A *)

Lemma gguf_decode_tensors_app (oracle : SizeOracle) (c : GGUF.containerGGUF) (i : nat) :
  forall (ts ts_i : list tensor) (p p_i : Z) (r r_i : readSeekOffset) (n : nat),
    GGUF.decode_tensors oracle c i ts p r = Ret (ts_i, p_i, None) r_i ->
    GGUF.decode_tensors oracle c (i + n) ts p r
    = GGUF.decode_tensors oracle c n ts_i p_i r_i.
Proof.
  induction i as [|i IH]; intros ts ts_i p p_i r r_i n H; simpl in H.
  - now injection H as <- <- <-.
  - simpl. unfold bind in *.
    destruct (GGUF.decode_tensor c r) as [[err|t] r1|pn]; try discriminate.
    now apply IH.
Qed.

(** X17: the error of a string is returned as it is: when the key-value loop
    comes to an entry whose key [readString] refuses, [decode] returns that
    error and the model with the entries stored before; when the tensor loop
    comes to a tensor whose name [readString] refuses, [decode] returns that
    error and the model with the tensors decoded before, the store without
    the parameter count. *)
Theorem string_errors_returned (oracle : SizeOracle) (llm : GGUF.modelGGUF)
    (r : readSeekOffset) :
  let c := GGUF.container llm in
  (forall i kv_i r_i err r',
      (i < Z.to_nat (GGUF.modelNumKV c))%nat ->
      GGUF.decode_kvs c i (GGUF.kv llm) r = Ret (kv_i, None) r_i ->
      GGUF.readString c r_i = Ret (inl err) r' ->
      GGUF.decode oracle llm r
      = Ret ({| GGUF.container := c; GGUF.kv := kv_i;
                GGUF.tensors := GGUF.tensors llm;
                GGUF.parameters := GGUF.parameters llm |}, Some err) r')
  /\ (forall kv1 r1 j ts_j p_j r_j err r',
         GGUF.decode_kvs c (Z.to_nat (GGUF.modelNumKV c)) (GGUF.kv llm) r
         = Ret (kv1, None) r1 ->
         (j < Z.to_nat (GGUF.modelNumTensor c))%nat ->
         GGUF.decode_tensors oracle c j (GGUF.tensors llm) (GGUF.parameters llm) r1
         = Ret (ts_j, p_j, None) r_j ->
         GGUF.readString c r_j = Ret (inl err) r' ->
         GGUF.decode oracle llm r
         = Ret ({| GGUF.container := c; GGUF.kv := kv1;
                   GGUF.tensors := ts_j; GGUF.parameters := p_j |}, Some err) r').
Proof.
  intros c. split.
  - intros i kv_i r_i err r' Hi Hkvs Hstr.
    unfold GGUF.decode. fold c.
    replace (Z.to_nat (GGUF.modelNumKV c))
      with (i + S (Z.to_nat (GGUF.modelNumKV c) - S i))%nat by lia.
    unfold bind at 1. rewrite (decode_kvs_app _ _ _ _ _ _ _ Hkvs).
    simpl GGUF.decode_kvs. unfold bind at 1. unfold GGUF.decode_kv.
    unfold bind at 1. rewrite Hstr. reflexivity.
  - intros kv1 r1 j ts_j p_j r_j err r' Hkvs Hj Hts Hstr.
    unfold GGUF.decode. fold c.
    unfold bind at 1. rewrite Hkvs.
    replace (Z.to_nat (GGUF.modelNumTensor c))
      with (j + S (Z.to_nat (GGUF.modelNumTensor c) - S j))%nat by lia.
    unfold bind at 1. rewrite (gguf_decode_tensors_app _ _ _ _ _ _ _ _ _ _ Hts).
    simpl GGUF.decode_tensors. unfold bind at 1. unfold GGUF.decode_tensor.
    unfold bind at 1. rewrite Hstr. reflexivity.
Qed.

Lemma string_errors_returned_witness :
  GGUF.decode float_oracle (GGUF.newModelGGUF (Samples.gguf_v3 0 1))
    {| data := Samples.chars "GGUF" ++ Samples.header 0 1 ++ MoreSamples.short_string;
       offset := 24 |}
  = Ret (GGUF.newModelGGUF (Samples.gguf_v3 0 1), Some EOF)
        {| data := Samples.chars "GGUF" ++ Samples.header 0 1
                     ++ MoreSamples.short_string;
           offset := 34 |}.
Proof.
  refine (proj1 (string_errors_returned float_oracle
                   (GGUF.newModelGGUF (Samples.gguf_v3 0 1)) _)
                0%nat ∅ _ EOF _ _ _ _).
  - vm_compute. lia.
  - reflexivity.
  - vm_compute. reflexivity.
Defined.
